(** * lachesis-dag-tool: the neo4j bridge of the DAG reader

    A shallow embedding of [dagreader/store.go] (the bounded write pipeline
    in front of the database handle) and of the [neo4j] package's [Db]
    (read-through LRU cache, event queries, ancestor query, epoch get/set,
    and the [Load] consumer loop).

    The graph database, its Go driver and the LRU cache library are external
    to both files.  They are modelled here by what the code sends to them
    and by what it does with each possible answer:
    - the database is a [Graph]: [Event] nodes keyed by [id], [PARENT]
      relationships, [Epoch] rows;
    - every Cypher text of the source is one constructor of [Cypher] and one
      function on [Graph];
    - the driver's three failure points (session creation, running a query,
      the transaction as a whole) are chosen by a [Driver] argument;
    - goroutines, the channel [s.out] and the wait groups are a labelled
      transition system ([step]) whose schedules are lists of [action]s:
      the statements of [Save], [Close] and [Load], and the queries that
      callers run against the same handle in between. *)

From stdpp Require Import gmap list.
From Stdlib Require Import ZArith.

Local Open Scope Z_scope.

(** ** Data model *)

(** [hash.Event] is a 32-byte array that the code only copies and compares;
    an identifier is a number here.  [eventID]/[eventHash] (hex encoding and
    decoding, not part of the two files) are the identity on identifiers. *)
Abbreviation EventHash := N.

(** [inter.EventHeaderData], reduced to what this code touches: its hash,
    [Creator], [Parents], and [Other] standing for every remaining header
    field (zero value [0]). *)
Record EventHeaderData := mkHeader {
  Hash : EventHash;
  Creator : N;
  Parents : list EventHash;
  Other : N
}.

#[global] Instance EventHeaderData_eq_dec : EqDecision EventHeaderData.
Proof. solve_decision. Defined.

(** The property map of a node as the queries read it back:
    [RETURN e.id as id, e.creator as creator]. *)
Record fields := mkFields { f_id : EventHash; f_creator : N }.

(** Modelled from the spec: [marshal] and [unmarshal] live in a file of the
    [neo4j] package that is not among the sources.  The node is keyed by the
    hex-encoded hash ("unique property id") and carries header fields as
    properties; the only properties any query reads back are [id] and
    [creator], so [unmarshal] fills a zeroed header from those two. *)
Definition marshal (x : EventHeaderData) : fields :=
  {| f_id := Hash x; f_creator := Creator x |}.

Definition unmarshal (ff : fields) : EventHeaderData :=
  {| Hash := f_id ff; Creator := f_creator ff; Parents := []; Other := 0%N |}.

Definition withParents (x : EventHeaderData) (ps : list EventHash) : EventHeaderData :=
  {| Hash := Hash x; Creator := Creator x; Parents := ps; Other := Other x |}.

(** [idx.Epoch] is a [uint32]. *)
Definition EpochMax : Z := 2 ^ 32.
Definition toEpoch (n : Z) : Z := n mod EpochMax.

(** ** The backing store *)

(** Persisted schema: label [Event] with unique [id], relationship [PARENT]
    from child to parent, label [Epoch] with [id = 'current'] and [num]. *)
Record Graph := mkGraph {
  Events : gmap N fields;
  PARENT : list (EventHash * EventHash);
  Epochs : list Z
}.

Definition emptyGraph : Graph := mkGraph ∅ [] [].

(** The query texts of the source. *)
Inductive Cypher :=
| DDLEventUnique                      (* CREATE CONSTRAINT ON (e:Event) ASSERT e.id IS UNIQUE *)
| DDLEpochUnique                      (* CREATE CONSTRAINT ON (e:Epoch) ASSERT e.id IS UNIQUE *)
| DDLCreateEpoch                      (* CREATE (e:Epoch {id:'current',num:1}) *)
| MatchEvent (id : EventHash)         (* MATCH (e:Event {id}) RETURN e *)
| MatchEventFields (id : EventHash)   (* MATCH (e:Event {id}) RETURN e.id as id, e.creator as creator *)
| MatchParents (id : EventHash)       (* MATCH (e:Event {id})-[:PARENT]->(p) RETURN p.id *)
| MatchAncestors (id : EventHash)     (* MATCH (p:Event {id})-[:PARENT*]->(s:Event) RETURN DISTINCT s.id *)
| CreateEvent (data : fields)         (* CREATE (e:Event data) *)
| CreateParent (id pid : EventHash)   (* MATCH (e:Event {id}), (p:Event {pid}) CREATE (e)-[:PARENT]->(p) *)
| SetEpochNum (num : Z)               (* MATCH (e:Epoch {id:'current'}) SET e.num = num *)
| MatchEpoch.                         (* MATCH (e:Epoch {id:'current'}) RETURN e.num as num *)

Definition isEvent (g : Graph) (id : EventHash) : bool :=
  bool_decide (is_Some (Events g !! id)).

Definition matchEvent (g : Graph) (id : EventHash) : list fields :=
  option_list (Events g !! id).

(** The rows of [MatchParents].  The query has no [ORDER BY], so the order
    of the rows is the database's choice; they are listed here in the order
    the relationships were created, and no statement below depends on that
    order. *)
Definition matchParents (g : Graph) (id : EventHash) : list EventHash :=
  if isEvent g id
  then omap (λ e, if decide (e.1 = id) then Some e.2 else None) (PARENT g)
  else [].

(** One hop along [PARENT] out of a set of nodes. *)
Definition succs (E : list (EventHash * EventHash)) (X : gset N) : gset N :=
  list_to_set (omap (λ e, if decide (e.1 ∈ X) then Some e.2 else None) E).

(** [-[:PARENT*]->]: paths of one or more relationships.  The frontier is
    saturated; [length E] rounds are enough (see [closure_saturated]). *)
Fixpoint closure (fuel : nat) (E : list (EventHash * EventHash)) (X : gset N) : gset N :=
  match fuel with
  | O => X
  | S n => closure n E (X ∪ succs E X)
  end.

Definition matchAncestors (g : Graph) (id : EventHash) : list EventHash :=
  if isEvent g id
  then elements (filter (λ s, isEvent g s = true)
                        (closure (length (PARENT g)) (PARENT g) (succs (PARENT g) {[id]})))
  else [].

Definition matchEpoch (g : Graph) : list Z := Epochs g.

(** [CREATE (e:Event data)] under the uniqueness constraint on [id]:
    [None] when the constraint rejects the node. *)
Definition createEvent (g : Graph) (data : fields) : option Graph :=
  match Events g !! f_id data with
  | Some _ => None
  | None => Some (mkGraph (<[f_id data := data]> (Events g)) (PARENT g) (Epochs g))
  end.

(** [MATCH (e), (p) CREATE (e)-[:PARENT]->(p)]: one relationship per matched
    pair, none when either node is missing. *)
Definition createParent (g : Graph) (id pid : EventHash) : Graph :=
  if isEvent g id && isEvent g pid
  then mkGraph (Events g) (PARENT g ++ [(id, pid)]) (Epochs g)
  else g.

Definition setEpochNum (g : Graph) (num : Z) : Graph :=
  mkGraph (Events g) (PARENT g) (map (λ _, num) (Epochs g)).

(** [CREATE (e:Epoch {id:'current',num:1})] under the uniqueness constraint. *)
Definition createEpoch (g : Graph) : option Graph :=
  match Epochs g with
  | [] => Some (mkGraph (Events g) (PARENT g) [1])
  | _ :: _ => None
  end.

(** ** The LRU cache ([lru.New(500)]), most recently used first *)

Definition lruSize : nat := 500.

Abbreviation Cache := (list (EventHash * EventHeaderData)).

Fixpoint lruFind (k : EventHash) (c : Cache) : option EventHeaderData :=
  match c with
  | [] => None
  | (k', v) :: c' => if decide (k' = k) then Some v else lruFind k c'
  end.

Fixpoint lruRemove (k : EventHash) (c : Cache) : Cache :=
  match c with
  | [] => []
  | (k', v) :: c' => if decide (k' = k) then lruRemove k c' else (k', v) :: lruRemove k c'
  end.

(** [Get]: a hit moves the entry to the front. *)
Definition lruGet (k : EventHash) (c : Cache) : option EventHeaderData * Cache :=
  match lruFind k c with
  | Some v => (Some v, (k, v) :: lruRemove k c)
  | None => (None, c)
  end.

(** [Add]: an existing key is updated and moved to the front; a new key is
    pushed and the oldest entry is dropped when the size is exceeded. *)
Definition lruAdd (k : EventHash) (v : EventHeaderData) (c : Cache) : Cache :=
  match lruFind k c with
  | Some _ => (k, v) :: lruRemove k c
  | None =>
      let c' := (k, v) :: c in
      if decide (lruSize < length c')%nat then removelast c' else c'
  end.

(** ** Logging *)

Inductive LogLine :=
| LogTrace                                   (* log.Trace("neo4j non critical error", ...) *)
| LogWarnDDL (q : Cypher)                    (* log.Warn("DDL", ...) *)
| LogProgress (last : EventHash) (total : Z) (* log.Info("<<<", ...) *)
| LogSummary (last : EventHash) (total : Z). (* log.Info("Total imported events", ...) *)

(** ** The driver *)

(** What the driver does to one transaction: nothing wrong, [ctx.Run]
    returns an error, or the transaction function as a whole returns
    [(nil, err)] (it could not begin, or could not commit). *)
Inductive TxFault := TxOk | RunFails | TxFails.

#[global] Instance TxFault_eq_dec : EqDecision TxFault.
Proof. solve_decision. Defined.

Record Driver := mkDriver {
  sessionFails : bool;       (* s.drv.Session returns an error *)
  txFaults : list TxFault    (* the transactions of the call, in order *)
}.

Definition txAt (d : Driver) (k : nat) : TxFault := default TxOk (txFaults d !! k).

Definition healthy : Driver := mkDriver false [].

(** ** State and the monad of the [Db] methods *)

Record World := mkWorld {
  store : Graph;
  EventsHeaders : list (EventHash * EventHeaderData);
  logs : list LogLine;
  sent : list Cypher
}.

Inductive result (A : Type) :=
| Ret (a : A)
| Panic.
Arguments Ret {A} a.
Arguments Panic {A}.

Definition M (A : Type) : Type := World → result (A * World).

Definition ret {A} (a : A) : M A := λ w, Ret (a, w).
Definition bind {A B} (m : M A) (k : A → M B) : M B :=
  λ w, match m w with
       | Ret (a, w') => k a w'
       | Panic => Panic
       end.
Definition panic {A} : M A := λ _, Panic.

Declare Scope db_scope.
Delimit Scope db_scope with db.
Notation "x <- m ;; k" := (bind m (λ x, k))
  (at level 100, m at next level, right associativity) : db_scope.
Notation "m ;;; k" := (bind m (λ _, k))
  (at level 100, right associativity) : db_scope.
Local Open Scope db_scope.

Definition getStore : M Graph := λ w, Ret (store w, w).
Definition putStore (g : Graph) : M unit :=
  λ w, Ret (tt, mkWorld g (EventsHeaders w) (logs w) (sent w)).
Definition logLine (l : LogLine) : M unit :=
  λ w, Ret (tt, mkWorld (store w) (EventsHeaders w) (logs w ++ [l]) (sent w)).
Definition send (q : Cypher) : M unit :=
  λ w, Ret (tt, mkWorld (store w) (EventsHeaders w) (logs w) (sent w ++ [q])).

Definition cacheGet (k : EventHash) : M (option EventHeaderData) :=
  λ w, let '(r, c) := lruGet k (EventsHeaders w) in
       Ret (r, mkWorld (store w) c (logs w) (sent w)).
Definition cacheAdd (k : EventHash) (v : EventHeaderData) : M unit :=
  λ w, Ret (tt, mkWorld (store w) (lruAdd k v (EventsHeaders w)) (logs w) (sent w)).

(** [func ignoreFakeError(err error)] *)
Definition ignoreFakeError : M unit := logLine LogTrace.

(** [s.drv.Session(mode)] followed by [if err != nil { panic(err) }]. *)
Definition Session (d : Driver) : M unit :=
  if sessionFails d then panic else ret tt.

(** [search]/[exec]: format the query, hand it to [ctx.Run]; the callers
    inside [Db] panic on the error. *)
Definition run (f : TxFault) (q : Cypher) : M unit :=
  send q ;;; if decide (f = RunFails) then panic else ret tt.

(** [session.ReadTransaction(work)]: the value of [work], or [(nil, err)].
    An [interface{}] result is an [option]: [None] is [nil]. *)
Definition ReadTransaction {A} (f : TxFault) (work : M (option A)) : M (option A * bool) :=
  match f with
  | TxFails => ret (None, true)
  | _ => r <- work ;; ret (r, false)
  end.

(** [if err != nil { ignoreFakeError(err) }] *)
Definition swallow (err : bool) : M unit :=
  if err then ignoreFakeError else ret tt.

(** A type assertion [res.(T)]: it panics on a [nil] interface. *)
Definition assertType {A} (res : option A) : M A :=
  match res with
  | Some a => ret a
  | None => panic
  end.

(** ** Queries of [Db] *)

(** [func (s *Db) HasEvent(e hash.Event) bool] *)
Definition HasEvent (d : Driver) (e : EventHash) : M bool :=
  hit <- cacheGet e ;;
  match hit with
  | Some _ => ret true
  | None =>
      Session d ;;;
      r <- ReadTransaction (txAt d 0)
             (run (txAt d 0) (MatchEvent e) ;;;
              g <- getStore ;;
              ret (Some (negb (bool_decide (matchEvent g e = []))))) ;;
      swallow r.2 ;;;
      assertType r.1
  end.

(** [func (s *Db) GetEvent(e hash.Event) *inter.EventHeaderData] *)
Definition GetEvent (d : Driver) (e : EventHash) : M (option EventHeaderData) :=
  hit <- cacheGet e ;;
  match hit with
  | Some ev => ret (Some ev)
  | None =>
      Session d ;;;
      r <- ReadTransaction (txAt d 0)
             (run (txAt d 0) (MatchEventFields e) ;;;
              g <- getStore ;;
              ret (match matchEvent g e with
                   | ff :: _ => Some (unmarshal ff)
                   | [] => None
                   end)) ;;
      swallow r.2 ;;;
      match r.1 with
      | None => ret None
      | Some event =>
          r2 <- ReadTransaction (txAt d 1)
                  (run (txAt d 1) (MatchParents e) ;;;
                   g <- getStore ;;
                   ret (Some (matchParents g e))) ;;
          swallow r2.2 ;;;
          parents <- assertType r2.1 ;;
          ret (Some (withParents event parents))
      end
  end.

(** [func (s *Db) FindAncestors(e hash.Event) []hash.Event] *)
Definition FindAncestors (d : Driver) (e : EventHash) : M (list EventHash) :=
  Session d ;;;
  r <- ReadTransaction (txAt d 0)
         (run (txAt d 0) (MatchAncestors e) ;;;
          g <- getStore ;;
          ret (Some (matchAncestors g e))) ;;
  swallow r.2 ;;;
  assertType r.1.

(** [func (s *Db) SetEpoch(num idx.Epoch)] *)
Definition SetEpoch (d : Driver) (num : Z) : M unit :=
  Session d ;;;
  err <- match txAt d 0 with
         | TxFails => ret true
         | f =>
             run f (SetEpochNum num) ;;;
             g <- getStore ;;
             putStore (setEpochNum g num) ;;;
             ret false
         end ;;
  swallow err.

(** [func (s *Db) GetEpoch() idx.Epoch] *)
Definition GetEpoch (d : Driver) : M Z :=
  Session d ;;;
  r <- ReadTransaction (txAt d 0)
         (run (txAt d 0) MatchEpoch ;;;
          g <- getStore ;;
          ret (match matchEpoch g with
               | num :: _ => Some (toEpoch num)
               | [] => None
               end)) ;;
  swallow r.2 ;;;
  match r.1 with
  | None => ret 1
  | Some epoch => ret epoch
  end.

(** One DDL statement of [New] in its own write transaction; a failing one
    is logged ([log.Warn] on a [Run] error) and swallowed.  Creating a
    constraint that exists is taken to succeed. *)
Definition ddl (f : TxFault) (q : Cypher) (apply : Graph → option Graph) : M unit :=
  err <- match f with
         | TxFails => ret true
         | RunFails => send q ;;; logLine (LogWarnDDL q) ;;; ret true
         | TxOk =>
             send q ;;;
             g <- getStore ;;
             match apply g with
             | Some g' => putStore g' ;;; ret false
             | None => ret true
             end
         end ;;
  swallow err.

(** [func New(dbUrl string)], which returns a handle or an error: [true]
    stands for the returned
    error (driver or session could not be opened); otherwise the three DDL
    statements run and the handle starts with an empty cache. *)
Definition New (d : Driver) : M bool :=
  if sessionFails d then ret true
  else
    ddl (txAt d 0) DDLEventUnique Some ;;;
    ddl (txAt d 1) DDLEpochUnique Some ;;;
    ddl (txAt d 2) DDLCreateEpoch createEpoch ;;;
    (λ w, Ret (false, mkWorld (store w) [] (logs w) (sent w))).

Definition emptyWorld : World := mkWorld emptyGraph [] [] [].

(** ** The write transaction of [Load] *)

Fixpoint forEach {A} (l : list A) (body : A → M unit) : M unit :=
  match l with
  | [] => ret tt
  | a :: l' => body a ;;; forEach l' body
  end.

(** The body of [for task := range events] up to [ignoreFakeError]: one
    write transaction creating the node and one relationship per parent.
    A node the uniqueness constraint rejects fails the transaction. *)
Definition storeEvent (f : TxFault) (event : EventHeaderData) : M unit :=
  err <- match f with
         | TxFails => ret true
         | _ =>
             run f (CreateEvent (marshal event)) ;;;
             forEach (Parents event) (λ p, run f (CreateParent (Hash event) p)) ;;;
             g <- getStore ;;
             match createEvent g (marshal event) with
             | None => ret true
             | Some g1 =>
                 putStore (foldl (λ g' p, createParent g' (Hash event) p) g1 (Parents event)) ;;;
                 ret false
             end
         end ;;
  swallow err.

(** ** [store.go]: tasks, wait groups, the channel *)

(** [sync.WaitGroup]: the counters of the wait groups allocated so far, one
    per [Save] call.  [Add] panics on a negative counter. *)
Definition wgAdd (i : nat) (delta : Z) (h : list Z) : result (list Z) :=
  match h !! i with
  | Some c => if decide (c + delta < 0) then Panic else Ret (<[i := c + delta]> h)
  | None => Panic
  end.

Definition wgDone (i : nat) : list Z → result (list Z) := wgAdd i (-1).

(** [wg.Wait()] may return. *)
Definition wgIdle (i : nat) (h : list Z) : bool := bool_decide (h !! i = Some 0).

(** [type task struct { event; onDone func() }] *)
Record task := mkTask {
  event : EventHeaderData;
  onDone : option (list Z → result (list Z))
}.

(** [func (t *task) Payload()] *)
Definition Payload (t : task) : EventHeaderData := event t.

(** [func (t *task) Done()] *)
Definition Done (t : task) (h : list Z) : result (list Z) :=
  match onDone t with
  | Some f => f h
  | None => Ret h
  end.

(** [make(chan neo4j.ToStore, 10)] *)
Definition outCap : nat := 10.

(** Where a [Save] call stands. *)
Inductive SavePC :=
| SaveSend (t : task)     (* at [s.out <- t] *)
| SaveWait                (* at [if s.synced { wg.Wait() }] *)
| SaveReturned.

(** Where the goroutine running [Load] stands. *)
Inductive LoadPC :=
| LoadStart                          (* before [s.drv.Session] *)
| LoadRecv                           (* at [for task := range events] *)
| LoadCommit (i : nat) (t : task)    (* at [session.WriteTransaction] *)
| LoadCache (i : nat) (t : task)     (* at [s.cache.EventsHeaders.Add] *)
| LoadDone (i : nat) (t : task)      (* at [task.Done()] *)
| LoadStats (i : nat) (t : task)     (* at [counter.Incr(1)] *)
| LoadExit.                          (* returned *)

(** What happened, in order; [i] is the index of the [Save] call and [e] the
    event it was given. *)
Inductive Obs :=
| OCall (i : nat) (e : EventHeaderData)
| OEnqueue (i : nat)
| OReturn (i : nat)
| OClose
| ODequeue (i : nat)
| OCommit (i : nat)
| OCacheAdd (i : nat) (e : EventHeaderData)
| ODone (i : nat)
| OSummary
| OLookup (h : EventHash)   (* a caller's [HasEvent] or [GetEvent] went to the cache *)
| OQuery.                   (* a caller's [FindAncestors] or [GetEpoch] returned *)

#[global] Instance Obs_eq_dec : EqDecision Obs.
Proof. solve_decision. Defined.

Record Sys := mkSys {
  synced : bool;
  out : list (nat * task);   (* the buffer of [s.out]; each task with the index of its call *)
  closed : bool;
  calls : list SavePC;
  wgs : list Z;
  loader : LoadPC;
  total : Z;
  last : EventHash;
  db : World;                (* the handle as [Load] sees it: store, cache, and what
                                [Load] has logged and sent *)
  trace : list Obs
}.

(** [newStore(db, synced)] over a database handle in state [w]. *)
Definition newStore (w : World) (sync : bool) : Sys :=
  mkSys sync [] false [] [] LoadStart 0 0%N w [].

Inductive action :=
| ACall (e : EventHeaderData)           (* a producer enters [Save(e)] and builds the task *)
| ASend (i : nat)                       (* call [i] sends on [s.out] *)
| AReturn (i : nat)                     (* call [i] passes the wait and returns *)
| AClose                                (* [store.Close] *)
| ALoad (d : Driver) (elapsed : bool)   (* the next statement of [Load]; [elapsed]:
                                           [time.Since(reported) >= statsReportLimit] *)
| AHasEvent (d : Driver) (h : EventHash)       (* a caller runs [HasEvent(h)] *)
| AGetEvent (d : Driver) (h : EventHash)       (* a caller runs [GetEvent(h)] *)
| AFindAncestors (d : Driver) (h : EventHash)  (* a caller runs [FindAncestors(h)] *)
| AGetEpoch (d : Driver).                      (* a caller runs [GetEpoch()] *)

Inductive outcome :=
| Next (s : Sys)
| Blocked
| Crashed.

Definition withDb (s : Sys) (pc : LoadPC) (o : Obs) (m : M unit) : outcome :=
  match m (db s) with
  | Ret (_, w) =>
      Next (mkSys (synced s) (out s) (closed s) (calls s) (wgs s) pc
                  (total s) (last s) w (trace s ++ [o]))
  | Panic => Crashed
  end.

Definition stepLoad (d : Driver) (elapsed : bool) (s : Sys) : outcome :=
  match loader s with
  | LoadStart =>
      match Session d (db s) with
      | Ret (_, w) =>
          Next (mkSys (synced s) (out s) (closed s) (calls s) (wgs s) LoadRecv
                      (total s) (last s) w (trace s))
      | Panic => Crashed
      end
  | LoadRecv =>
      match out s with
      | (i, t) :: rest =>
          Next (mkSys (synced s) rest (closed s) (calls s) (wgs s) (LoadCommit i t)
                      (total s) (last s) (db s) (trace s ++ [ODequeue i]))
      | [] =>
          if closed s
          then withDb s LoadExit OSummary (logLine (LogSummary (last s) (total s)))
          else Blocked
      end
  | LoadCommit i t =>
      withDb s (LoadCache i t) (OCommit i) (storeEvent (txAt d 0) (Payload t))
  | LoadCache i t =>
      withDb s (LoadDone i t) (OCacheAdd i (Payload t)) (cacheAdd (Hash (Payload t)) (Payload t))
  | LoadDone i t =>
      match Done t (wgs s) with
      | Ret h =>
          Next (mkSys (synced s) (out s) (closed s) (calls s) h (LoadStats i t)
                      (total s) (last s) (db s) (trace s ++ [ODone i]))
      | Panic => Crashed
      end
  | LoadStats i t =>
      match (if elapsed
             then logLine (LogProgress (Hash (Payload t)) (total s + 1))
             else ret tt) (db s) with
      | Ret (_, w) =>
          Next (mkSys (synced s) (out s) (closed s) (calls s) (wgs s) LoadRecv
                      (total s + 1) (Hash (Payload t)) w (trace s))
      | Panic => Crashed
      end
  | LoadExit => Blocked
  end.

(** A query of a caller against the handle the pipeline writes through
    ([store] embeds it, and [HasEvent], [GetEvent] and [GetEpoch] are
    promoted to [store]).  It runs as one step, the cache being the only
    shared state it changes and the cache serialising its operations.  A
    panic in the caller's goroutine ends the program.  [logs] and [sent] of
    [db s] are those of the [Load] goroutine: what the caller logs and sends
    is the caller's and is not kept here. *)
Definition query {A} (s : Sys) (o : Obs) (m : M A) : outcome :=
  match m (db s) with
  | Ret (_, w) =>
      Next (mkSys (synced s) (out s) (closed s) (calls s) (wgs s) (loader s)
                  (total s) (last s)
                  (mkWorld (store w) (EventsHeaders w) (logs (db s)) (sent (db s)))
                  (trace s ++ [o]))
  | Panic => Crashed
  end.
Arguments query : simpl never.

(** [func (s *store) Save(event)] and [Close], statement by statement, the
    statements of [Load], and the queries.  [SetEpoch] is no action: the
    pipeline has no access to it, [Neo4jDb] does not list it. *)
Definition step (a : action) (s : Sys) : outcome :=
  match a with
  | ACall e =>
      let i := length (calls s) in
      let h := wgs s ++ [0] in
      let enter (t : task) (h' : list Z) :=
        Next (mkSys (synced s) (out s) (closed s) (calls s ++ [SaveSend t]) h'
                    (loader s) (total s) (last s) (db s) (trace s ++ [OCall i e])) in
      if synced s
      then match wgAdd i 1 h with
           | Ret h' => enter (mkTask e (Some (wgDone i))) h'
           | Panic => Crashed
           end
      else enter (mkTask e None) h
  | ASend i =>
      match calls s !! i with
      | Some (SaveSend t) =>
          if closed s then Crashed
          else if decide (length (out s) < outCap)%nat
          then Next (mkSys (synced s) (out s ++ [(i, t)]) (closed s)
                           (<[i := SaveWait]> (calls s)) (wgs s)
                           (loader s) (total s) (last s) (db s) (trace s ++ [OEnqueue i]))
          else Blocked
      | _ => Blocked
      end
  | AReturn i =>
      match calls s !! i with
      | Some SaveWait =>
          if negb (synced s) || wgIdle i (wgs s)
          then Next (mkSys (synced s) (out s) (closed s)
                           (<[i := SaveReturned]> (calls s)) (wgs s)
                           (loader s) (total s) (last s) (db s) (trace s ++ [OReturn i]))
          else Blocked
      | _ => Blocked
      end
  | AClose =>
      if closed s then Crashed
      else Next (mkSys (synced s) (out s) true (calls s) (wgs s)
                       (loader s) (total s) (last s) (db s) (trace s ++ [OClose]))
  | ALoad d elapsed => stepLoad d elapsed s
  | AHasEvent d h => query s (OLookup h) (HasEvent d h)
  | AGetEvent d h => query s (OLookup h) (GetEvent d h)
  | AFindAncestors d h => query s OQuery (FindAncestors d h)
  | AGetEpoch d => query s OQuery (GetEpoch d)
  end.

(** A schedule: the actions taken one after the other. *)
Fixpoint exec (sched : list action) (s : Sys) : outcome :=
  match sched with
  | [] => Next s
  | a :: sched' =>
      match step a s with
      | Next s' => exec sched' s'
      | o => o
      end
  end.

(** A state the pipeline can be in: some schedule leads there from
    [newStore]. *)
Definition reachable (w : World) (sync : bool) (s : Sys) : Prop :=
  ∃ sched, exec sched (newStore w sync) = Next s.

(** The producer's view of one complete [Save(e)] when nothing else runs:
    the call, the send, the five statements of [Load] for the task, the
    return. *)
Definition saveAlone (d : Driver) (i : nat) (e : EventHeaderData) : list action :=
  [ACall e; ASend i; ALoad d false; ALoad d false; ALoad d false; ALoad d false;
   ALoad d false; AReturn i].


(** ** Vocabulary of the statements *)

Local Close Scope Z_scope.

(** ** Reading the history of a run *)

Definition enqs (tr : list Obs) : list nat :=
  omap (λ o, if o is OEnqueue i then Some i else None) tr.
Definition deqs (tr : list Obs) : list nat :=
  omap (λ o, if o is ODequeue i then Some i else None) tr.
Definition commits (tr : list Obs) : list nat :=
  omap (λ o, if o is OCommit i then Some i else None) tr.
Definition cached (tr : list Obs) : list (nat * EventHeaderData) :=
  omap (λ o, if o is OCacheAdd i e then Some (i, e) else None) tr.
Definition dones (tr : list Obs) : list nat :=
  omap (λ o, if o is ODone i then Some i else None) tr.
Definition summaries (tr : list Obs) : nat :=
  length (omap (λ o, if o is OSummary then Some tt else None) tr).

(** The operations on the cache in the order they took place: the inserts
    of [Load] and the look-ups of the callers' queries. *)
Inductive CacheOp :=
| CAdd (i : nat) (e : EventHeaderData)
| CGet (h : EventHash).

#[global] Instance CacheOp_eq_dec : EqDecision CacheOp.
Proof. solve_decision. Defined.

Definition cacheOps (tr : list Obs) : list CacheOp :=
  omap (λ o, match o with
             | OCacheAdd i e => Some (CAdd i e)
             | OLookup h => Some (CGet h)
             | _ => None
             end) tr.

(** [a] happened, and later [b]. *)
Definition before (a b : Obs) (tr : list Obs) : Prop :=
  ∃ l1 l2 l3, tr = l1 ++ a :: l2 ++ b :: l3.

(** The task [Save] builds in call [i]. *)
Definition taskOf (sync : bool) (i : nat) (e : EventHeaderData) : task :=
  mkTask e (if sync then Some (wgDone i) else None).

(** The task the [Load] loop holds, and how far it got with it. *)
Definition hand (pc : LoadPC) : list (nat * task) :=
  match pc with
  | LoadCommit i t | LoadCache i t | LoadDone i t | LoadStats i t => [(i, t)]
  | _ => []
  end.
Definition undone (pc : LoadPC) : list nat :=
  match pc with
  | LoadCommit i _ | LoadCache i _ | LoadDone i _ => [i]
  | _ => []
  end.
Definition uncached (pc : LoadPC) : list nat :=
  match pc with
  | LoadCommit i _ | LoadCache i _ => [i]
  | _ => []
  end.
Definition uncommitted (pc : LoadPC) : list nat :=
  match pc with
  | LoadCommit i _ => [i]
  | _ => []
  end.


(** A driver under which [Load] does not panic. *)
Definition calm (d : Driver) : Prop :=
  sessionFails d = false ∧ txAt d 0 ≠ RunFails.

(** The position and value of a key in the cache. *)
Fixpoint lruPos (k : EventHash) (c : Cache) : option nat :=
  match c with
  | [] => None
  | (k', _) :: c' => if decide (k' = k) then Some 0 else S <$> lruPos k c'
  end.

(** What holds in every state of the pipeline: counters and buffer. *)
Record InvQueue (s : Sys) : Prop := {
  inv_cap : length (out s) ≤ outCap;
  inv_fifo : enqs (trace s) = deqs (trace s) ++ (out s).*1;
  inv_deq : deqs (trace s) = dones (trace s) ++ undone (loader s);
  inv_commit : deqs (trace s) = commits (trace s) ++ uncommitted (loader s);
  inv_cache : deqs (trace s) = (cached (trace s)).*1 ++ uncached (loader s);
  inv_nodup : NoDup (enqs (trace s));
  inv_sent : ∀ i, i ∈ enqs (trace s) →
             calls s !! i = Some SaveWait ∨ calls s !! i = Some SaveReturned;
  inv_exit : loader s = LoadExit → closed s = true ∧ out s = [];
  inv_summary : summaries (trace s) = if loader s is LoadExit then 1 else 0
}.

(** ... the tasks in flight and the wait groups ... *)
Record InvTask (s : Sys) : Prop := {
  inv_len : length (wgs s) = length (calls s);
  inv_call : ∀ i e, OCall i e ∈ trace s → i < length (calls s);
  inv_call_unique : ∀ i e e', OCall i e ∈ trace s → OCall i e' ∈ trace s → e = e';
  inv_flight : ∀ i t, (i, t) ∈ out s ++ hand (loader s) →
               t = taskOf (synced s) i (event t) ∧ OCall i (event t) ∈ trace s;
  inv_send : ∀ i t, calls s !! i = Some (SaveSend t) →
             t = taskOf (synced s) i (event t) ∧ OCall i (event t) ∈ trace s;
  inv_wg : ∀ i, i < length (calls s) →
           wgs s !! i =
             Some (if synced s && bool_decide (i ∉ dones (trace s)) then 1 else 0)%Z;
  inv_cached_call : ∀ i e, (i, e) ∈ cached (trace s) → OCall i e ∈ trace s
}.

(** ... the order of what happened to one task ... *)
Record InvOrder (s : Sys) : Prop := {
  ord_enq : ∀ i, OEnqueue i ∈ trace s → ∃ e, before (OCall i e) (OEnqueue i) (trace s);
  ord_deq : ∀ i, ODequeue i ∈ trace s → before (OEnqueue i) (ODequeue i) (trace s);
  ord_commit : ∀ i, OCommit i ∈ trace s → before (ODequeue i) (OCommit i) (trace s);
  ord_cache : ∀ i e, OCacheAdd i e ∈ trace s → before (OCommit i) (OCacheAdd i e) (trace s);
  ord_done : ∀ i, ODone i ∈ trace s → ∃ e, before (OCacheAdd i e) (ODone i) (trace s);
  ord_return : ∀ i, synced s = true → OReturn i ∈ trace s →
               before (ODone i) (OReturn i) (trace s)
}.

(** ... and the cache: a header stays findable until [lruSize] later
    operations on the cache, inserts or look-ups (a hit moves its entry to
    the front as an insert does), unless a different header is inserted
    under the same hash; and the header inserted last is findable, since
    only an insert evicts. *)
Definition InvLru (s : Sys) : Prop :=
  (∀ l1 i e l2,
     cacheOps (trace s) = l1 ++ CAdd i e :: l2 →
     (∀ j e', CAdd j e' ∈ l2 → Hash e' = Hash e → e' = e) →
     length l2 < lruSize →
     lruFind (Hash e) (EventsHeaders (db s)) = Some e ∧
     ∃ p, lruPos (Hash e) (EventsHeaders (db s)) = Some p ∧ p ≤ length l2)
  ∧ (∀ l i e, cached (trace s) = l ++ [(i, e)] →
       lruFind (Hash e) (EventsHeaders (db s)) = Some e).

Record Inv (s : Sys) : Prop := {
  inv_queue : InvQueue s;
  inv_task : InvTask s;
  inv_order : InvOrder s;
  inv_lru : InvLru s
}.

(** The result of a schedule that runs through. *)
Definition stateOf (o : outcome) (dflt : Sys) : Sys :=
  match o with
  | Next s => s
  | _ => dflt
  end.

(** [m] run from [w] returns [a] (in some final state) rather than panics. *)
Definition returns {A} (r : result (A * World)) (a : A) : Prop :=
  ∃ w', r = Ret (a, w').

(** The [PARENT] relationship as a relation: child, then parent. *)
Definition parentOf (E : list (EventHash * EventHash)) (a b : EventHash) : Prop :=
  (a, b) ∈ E.

(** The targets of the relationships bound every frontier. *)
Definition targets (E : list (EventHash * EventHash)) : gset N := list_to_set (E.*2).

(** A database on which [New] ran while the third DDL transaction failed:
    constraints in place, no [Epoch] row. *)
Definition unseeded : World :=
  match New (mkDriver false [TxOk; TxOk; TxFails]) emptyWorld with
  | Ret (_, w) => w
  | Panic => emptyWorld
  end.

(** A database on which [New] ran without failure. *)
Definition seeded : World :=
  match New healthy emptyWorld with
  | Ret (_, w) => w
  | Panic => emptyWorld
  end.

(** A store holding one event, nothing cached. *)
Definition oneEvent : World :=
  mkWorld (mkGraph {[ 1%N := mkFields 1 7 ]} [] [1%Z]) [] [] [].

(** The state after one call of [ignoreFakeError]. *)
Definition traced (w : World) : World :=
  mkWorld (store w) (EventsHeaders w) (logs w ++ [LogTrace]) (sent w).

(** The driver lets the transaction function return [(nil, err)]. *)
Definition txFailing : Driver := mkDriver false [TxFails].

(** [ctx.Run] returns an error. *)
Definition runFailing : Driver := mkDriver false [RunFails].

(** The queries of one [Load] transaction. *)
Definition storeQueries (e : EventHeaderData) : list Cypher :=
  CreateEvent (marshal e) :: map (CreateParent (Hash e)) (Parents e).

(** ** Sample runs *)

(** An event whose only parent is never saved. *)
Definition orphan : EventHeaderData := mkHeader 1 7 [9%N] 0.

(** An event without parents. *)
Definition genesis : EventHeaderData := mkHeader 1 7 [] 0.

(** [n] further events, saved one after the other by calls [1..n]. *)
Definition filler (n : nat) : list action :=
  flat_map (λ k, saveAlone healthy (S k) (mkHeader (N.of_nat (100 + k)) 7 [] 0)) (seq 0 n).

(** [Load] starts, [Save(e)] runs to its return under driver [d], then
    [lruSize] other events are saved. *)
Definition evictionRun (d : Driver) (e : EventHeaderData) : list action :=
  ALoad healthy false :: saveAlone d 0 e ++ filler lruSize.

Definition afterEviction (d : Driver) (e : EventHeaderData) : Sys :=
  stateOf (exec (evictionRun d e) (newStore seeded true)) (newStore seeded true).

(** One [Save(genesis)] has been entered and stands at its send. *)
Definition enteredOnly : Sys :=
  stateOf (exec [ACall genesis] (newStore seeded true)) (newStore seeded true).


(** One synchronous [Save(genesis)] from start to return. *)
Definition savedOne : Sys :=
  stateOf (exec (ALoad healthy false :: saveAlone healthy 0 genesis)
                (newStore seeded true)) (newStore seeded true).


(** The same run stopped where [Load] is about to call [task.Done()]. *)
Definition beforeDone : Sys :=
  stateOf (exec [ALoad healthy false; ACall genesis; ASend 0; ALoad healthy false;
                 ALoad healthy false; ALoad healthy false]
                (newStore seeded true)) (newStore seeded true).

(** Two tasks enqueued, then [Close]. *)
Definition closedWithTwo : Sys :=
  stateOf (exec [ALoad healthy false; ACall genesis; ASend 0;
                 ACall (mkHeader 2 7 [1%N] 0); ASend 1; AClose]
                (newStore seeded false)) (newStore seeded false).

(** ** Further vocabulary *)

(** Every relationship joins two event nodes, and a node is stored under
    its own [id]. *)
Definition wfGraph (g : Graph) : Prop :=
  (∀ a b, (a, b) ∈ PARENT g → isEvent g a = true ∧ isEvent g b = true) ∧
  (∀ k ff, Events g !! k = Some ff → f_id ff = k).

(** Nothing of [g] is missing in [g']. *)
Definition grows (g g' : Graph) : Prop :=
  (∀ k ff, Events g !! k = Some ff → Events g' !! k = Some ff) ∧
  (∃ added, PARENT g' = PARENT g ++ added).

(** [func (s *store) WaitForAll()]: [s.wg] was raised once in [newStore]
    and is lowered by the goroutine when [Load] has returned. *)
Definition WaitForAll (s : Sys) : outcome :=
  match loader s with
  | LoadExit => Next s
  | _ => Blocked
  end.

(** The events [Load] has counted so far: all cached ones, the one in hand
    apart while it is between cache insert and statistics. *)
Definition counted (s : Sys) (l : list (nat * EventHeaderData)) : Prop :=
  match loader s with
  | LoadDone i t | LoadStats i t => cached (trace s) = l ++ [(i, Payload t)]
  | _ => cached (trace s) = l
  end.

(** What the locals [total] and [last] of [Load] hold. *)
Definition InvStats (s : Sys) : Prop :=
  ∃ l, counted s l ∧
       total s = Z.of_nat (length l) ∧
       last s = default 0%N (Hash <$> (snd <$> list.last l)) ∧
       (loader s = LoadExit →
        ∃ ls, logs (db s) = ls ++ [LogSummary (last s) (total s)]).

(** The cache holds at most [lruSize] headers. *)
Definition cacheBounded (w : World) : Prop := length (EventsHeaders w) ≤ lruSize.

(** Two tasks enqueued, [Close], and [Load] run to its end. *)
Definition drainedTwo : Sys :=
  stateOf (exec ([ALoad healthy false; ACall genesis; ASend 0;
                  ACall (mkHeader 2 7 [1%N] 0); ASend 1; AClose]
                 ++ replicate 11 (ALoad healthy false))
                (newStore seeded false)) (newStore seeded false).

(** The database right after the node of [genesis] was committed to a store
    that held only the epoch row. *)
Definition afterCommit : World :=
  mkWorld (store oneEvent) [] [] [CreateEvent (marshal genesis)].

(** The actions that are queries of a caller. *)
Definition isRead (a : action) : Prop :=
  match a with
  | AHasEvent _ _ | AGetEvent _ _ | AFindAncestors _ _ | AGetEpoch _ => True
  | _ => False
  end.

(** What a query leaves in the history. *)
Definition quiet (o : Obs) : Prop :=
  match o with
  | OLookup _ | OQuery => True
  | _ => False
  end.

(** The cache after the look-up a query made, if it made one. *)
Definition lookedUp (o : Obs) (c : Cache) : Cache :=
  match o with
  | OLookup h => (lruGet h c).2
  | _ => c
  end.

(** The state a query leaves behind: the cache [c], one more entry in the
    history. *)
Definition afterRead (s : Sys) (c : Cache) (o : Obs) : Sys :=
  mkSys (synced s) (out s) (closed s) (calls s) (wgs s) (loader s) (total s) (last s)
        (mkWorld (store (db s)) c (logs (db s)) (sent (db s))) (trace s ++ [o]).

(** The driver lets the write transaction of this statement through. *)
Definition letsThrough (a : action) : Prop :=
  match a with
  | ALoad d _ => txAt d 0 = TxOk
  | _ => True
  end.

(** The events whose write transaction ran (other than the transactions
    [base], of which nothing is known) have their node in the store. *)
Definition InvNodes (base : list nat) (s : Sys) : Prop :=
  ∀ i e, i ∈ commits (trace s) → i ∉ base → OCall i e ∈ trace s →
         isEvent (store (db s)) (Hash e) = true.


(** The schedule of [drainedTwo]. *)
Definition drainTwo : list action :=
  [ALoad healthy false; ACall genesis; ASend 0;
   ACall (mkHeader 2 7 [1%N] 0); ASend 1; AClose]
  ++ replicate 11 (ALoad healthy false).

(** [n] events saved one after the other by calls [first..first+n-1]. *)
Definition fillerFrom (first n : nat) : list action :=
  flat_map (λ k, saveAlone healthy (first + k) (mkHeader (N.of_nat (100 + k)) 7 [] 0))
           (seq 0 n).

(** 499 events are saved, then [orphan]; each of the 499 is looked up, which
    leaves [orphan] the least recently used; one more event is saved. *)
Definition agedRun : list action :=
  ALoad healthy false :: fillerFrom 0 (lruSize - 1)
  ++ saveAlone healthy (lruSize - 1) orphan
  ++ map (λ k, AHasEvent healthy (N.of_nat (100 + k))) (seq 0 (lruSize - 1))
  ++ saveAlone healthy lruSize (mkHeader 99 7 [] 0).

Definition afterAging : Sys :=
  stateOf (exec agedRun (newStore seeded true)) (newStore seeded true).

(** * Properties *)


(** ** The ancestor traversal *)

Section Closure.
Variable E : list (EventHash * EventHash).


Lemma elem_of_succs (X : gset N) (y : N) :
  y ∈ succs E X ↔ ∃ a, a ∈ X ∧ parentOf E a y.
Proof.
  unfold succs, parentOf. rewrite elem_of_list_to_set, list_elem_of_omap. split.
  - intros [[a b] [Hin Hf]]. simpl in Hf. case_decide; [|done].
    injection Hf as ->. eauto.
  - intros (a & Ha & Hin). exists (a, y). split; [done|].
    simpl. by rewrite decide_True.
Qed.

Lemma closure_grows (n : nat) (X : gset N) : X ⊆ closure n E X.
Proof.
  revert X. induction n as [|n IH]; intros X; simpl; [done|].
  etrans; [|apply IH]. set_solver.
Qed.

Lemma closure_fixed (n : nat) (X : gset N) :
  succs E X ⊆ X → closure n E X = X.
Proof.
  intros Hsat. induction n as [|n IH]; simpl; [done|].
  replace (X ∪ succs E X) with X by set_solver. done.
Qed.

(** Everything the saturation adds is reachable from what it started with. *)
Lemma closure_sound (n : nat) (X : gset N) (y : N) :
  y ∈ closure n E X → y ∈ X ∨ ∃ a, a ∈ X ∧ tc (parentOf E) a y.
Proof.
  revert X. induction n as [|n IH]; intros X; simpl; [by left|].
  intros Hy. destruct (IH _ Hy) as [Hin | (a & Ha & Hreach)].
  - apply elem_of_union in Hin as [?|Hs]; [by left|].
    apply elem_of_succs in Hs as (a & Ha & Hedge). right. exists a.
    split; [done|]. by apply tc_once.
  - apply elem_of_union in Ha as [?|Hs]; [right; eauto|].
    apply elem_of_succs in Hs as (b & Hb & Hedge). right. exists b.
    split; [done|]. by eapply tc_l.
Qed.


Lemma succs_targets (X : gset N) : succs E X ⊆ (targets E).
Proof.
  intros y Hy. apply elem_of_succs in Hy as (a & _ & Hedge).
  unfold targets. rewrite elem_of_list_to_set, list_elem_of_fmap.
  by exists (a, y).
Qed.

Lemma closure_targets (n : nat) (X : gset N) :
  X ⊆ (targets E) → closure n E X ⊆ (targets E).
Proof.
  revert X. induction n as [|n IH]; intros X HX; simpl; [done|].
  apply IH. pose proof (succs_targets X). set_solver.
Qed.

Lemma size_list_to_set_le (l : list N) :
  size (list_to_set l : gset N) ≤ length l.
Proof.
  induction l as [|a l IH].
  - done.
  - cbn [list_to_set length]. rewrite size_union_alt, size_singleton.
    assert (size (list_to_set l ∖ {[a]} : gset N) ≤ size (list_to_set l : gset N))
      by (apply subseteq_size; set_solver).
    lia.
Qed.

(** Each round either changes nothing any more or adds a node. *)
Lemma closure_progress (n : nat) (X : gset N) :
  succs E (closure n E X) ⊆ closure n E X ∨ size X + n ≤ size (closure n E X).
Proof.
  revert X. induction n as [|n IH]; intros X; simpl.
  - right. lia.
  - destruct (decide (succs E X ⊆ X)) as [Hsat|Hnot].
    + left. replace (X ∪ succs E X) with X by set_solver.
      by rewrite closure_fixed.
    + destruct (IH (X ∪ succs E X)) as [?|Hsize]; [by left|right].
      assert (size X < size (X ∪ succs E X)) by (apply subset_size; set_solver).
      lia.
Qed.

(** [length E] rounds from a first hop saturate the frontier. *)
Lemma closure_saturated (h : EventHash) :
  let X := closure (length E) E (succs E {[h]}) in succs E X ⊆ X.
Proof.
  intros X. destruct (closure_progress (length E) (succs E {[h]})) as [?|Hsize]; [done|].
  fold X in Hsize.
  assert (size X ≤ length E).
  { etrans; [apply subseteq_size, (closure_targets _ _ (succs_targets _))|].
    unfold targets. etrans; [apply size_list_to_set_le|]. by rewrite length_fmap. }
  assert (succs E {[h]} = ∅) as Hempty.
  { apply leibniz_equiv, size_empty_iff. lia. }
  subst X. rewrite Hempty, closure_fixed.
  - intros y Hy. apply elem_of_succs in Hy as (a & Ha & _). set_solver.
  - intros y Hy. apply elem_of_succs in Hy as (a & Ha & _). set_solver.
Qed.

Lemma saturated_closed (S : gset N) (a y : N) :
  succs E S ⊆ S → tc (parentOf E) a y → a ∈ S → y ∈ S.
Proof.
  intros Hsat Hreach. induction Hreach as [a y Hedge | a b y Hedge _ IH]; intros Ha.
  - apply Hsat, elem_of_succs. eauto.
  - apply IH, Hsat, elem_of_succs. eauto.
Qed.

(** The saturated frontier is exactly the transitive closure of [PARENT]. *)
Lemma closure_reachable (h y : EventHash) :
  y ∈ closure (length E) E (succs E {[h]}) ↔ tc (parentOf E) h y.
Proof.
  split.
  - intros Hy. apply closure_sound in Hy as [Hs | (a & Hs & Hreach)].
    + apply elem_of_succs in Hs as (a & Ha & Hedge).
      apply elem_of_singleton in Ha as ->. by apply tc_once.
    + apply elem_of_succs in Hs as (b & Hb & Hedge).
      apply elem_of_singleton in Hb as ->. by eapply tc_l.
  - intros Hreach. pose proof (closure_saturated h) as Hsat. simpl in Hsat.
    assert (∀ b, parentOf E h b → b ∈ closure (length E) E (succs E {[h]})) as Hfirst.
    { intros b Hedge. apply closure_grows, elem_of_succs. exists h. set_solver. }
    inversion Hreach as [? ? Hedge | ? b ? Hedge Hrest]; subst.
    + by apply Hfirst.
    + eapply saturated_closed; [done|done|]. by apply Hfirst.
Qed.
End Closure.

Lemma elem_of_matchAncestors (g : Graph) (h y : EventHash) :
  y ∈ matchAncestors g h ↔
  isEvent g h = true ∧ isEvent g y = true ∧ tc (parentOf (PARENT g)) h y.
Proof.
  unfold matchAncestors. destruct (isEvent g h) eqn:Hh.
  - rewrite elem_of_elements, elem_of_filter, closure_reachable. naive_solver.
  - split; [by intros ?%elem_of_nil|naive_solver].
Qed.

Lemma NoDup_matchAncestors (g : Graph) (h : EventHash) : NoDup (matchAncestors g h).
Proof.
  unfold matchAncestors. destruct (isEvent g h); [apply NoDup_elements|constructor].
Qed.

(** ** The cache *)

Lemma lruGet_miss (k : EventHash) (w : World) :
  lruFind k (EventsHeaders w) = None → cacheGet k w = Ret (None, w).
Proof. intros Hmiss. unfold cacheGet, lruGet. rewrite Hmiss. by destruct w. Qed.

Lemma lruGet_hit (k : EventHash) (v : EventHeaderData) (w : World) :
  lruFind k (EventsHeaders w) = Some v →
  cacheGet k w =
    Ret (Some v, mkWorld (store w) ((k, v) :: lruRemove k (EventsHeaders w)) (logs w) (sent w)).
Proof. intros Hhit. unfold cacheGet, lruGet. by rewrite Hhit. Qed.

(** A cached header answers both lookups, whatever the driver would do. *)
Lemma HasEvent_cached (d : Driver) (k : EventHash) (v : EventHeaderData) (w : World) :
  lruFind k (EventsHeaders w) = Some v → returns (HasEvent d k w) true.
Proof. intros Hhit. unfold HasEvent, bind. rewrite (lruGet_hit _ _ _ Hhit). by eexists. Qed.

Lemma GetEvent_cached (d : Driver) (k : EventHash) (v : EventHeaderData) (w : World) :
  lruFind k (EventsHeaders w) = Some v → returns (GetEvent d k w) (Some v).
Proof. intros Hhit. unfold GetEvent, bind. rewrite (lruGet_hit _ _ _ Hhit). by eexists. Qed.

Lemma HasEvent_store_backed (w : World) (h : EventHash) :
  lruFind h (EventsHeaders w) = None →
  HasEvent healthy h w =
    Ret (isEvent (store w) h,
         mkWorld (store w) (EventsHeaders w) (logs w) (sent w ++ [MatchEvent h])).
Proof.
  intros Hmiss. unfold HasEvent, bind. rewrite (lruGet_miss _ _ Hmiss). simpl.
  unfold matchEvent, isEvent. by destruct (Events (store w) !! h).
Qed.

(** ** Epoch *)

(** C7.  [GetEpoch] on a database that answers: 1 when there is no [Epoch]
    row, otherwise the stored [num] (as an [idx.Epoch], which is the stored
    number itself whenever that fits 32 bits); the database is left as it
    was. *)
Theorem GetEpoch_default_or_stored (w : World) :
  GetEpoch healthy w =
    Ret (match Epochs (store w) with
         | [] => 1%Z
         | num :: _ => toEpoch num
         end,
         mkWorld (store w) (EventsHeaders w) (logs w) (sent w ++ [MatchEpoch]))
  ∧ ∀ num : Z, (0 ≤ num < EpochMax)%Z → toEpoch num = num.
Proof.
  split.
  - unfold GetEpoch, bind. simpl. unfold matchEpoch. by destruct (Epochs (store w)).
  - intros num Hrange. unfold toEpoch. by apply Z.mod_small.
Qed.

Lemma GetEpoch_default_or_stored_witness :
  (0 ≤ 5 < EpochMax)%Z ∧ toEpoch 5 = 5%Z.
Proof.
  assert (0 ≤ 5 < EpochMax)%Z as Hrange by (unfold EpochMax; lia).
  split; [exact Hrange|].
  exact (proj2 (GetEpoch_default_or_stored emptyWorld) 5%Z Hrange).
Defined.



(** C8, as stated, fails where the [Epoch] row is missing: [SetEpoch] only
    matches existing rows, so [SetEpoch(5)] changes nothing and [GetEpoch]
    still answers 1. *)
Lemma SetEpoch_without_row :
  Epochs (store unseeded) = [] ∧
  ∃ w1 w2, SetEpoch healthy 5 unseeded = Ret (tt, w1) ∧
           GetEpoch healthy w1 = Ret (1%Z, w2).
Proof. split; [reflexivity|]. do 2 eexists. split; reflexivity. Qed.

(** C8, amended.  [SetEpoch v] sets the number of every [Epoch] row there
    is to [v], for any [v] of the epoch type, larger or smaller than the
    stored number, and touches nothing else.  Where a row exists the next
    [GetEpoch] returns [v]; where none exists [SetEpoch] leaves the store as
    it was and the next [GetEpoch] returns 1 as before. *)
Theorem SetEpoch_then_GetEpoch (w : World) (v : Z) :
  (0 ≤ v < EpochMax)%Z →
  ∃ w1 w2, SetEpoch healthy v w = Ret (tt, w1) ∧
           Epochs (store w1) = map (λ _, v) (Epochs (store w)) ∧
           Events (store w1) = Events (store w) ∧
           PARENT (store w1) = PARENT (store w) ∧
           EventsHeaders w1 = EventsHeaders w ∧
           GetEpoch healthy w1 = Ret (if Epochs (store w) is [] then 1%Z else v, w2) ∧
           (Epochs (store w) = [] → store w1 = store w).
Proof.
  intros Hrange. do 2 eexists. split; [reflexivity|]. do 4 (split; [reflexivity|]).
  split.
  - unfold GetEpoch, bind. simpl. unfold matchEpoch. simpl.
    destruct (Epochs (store w)) as [|num rest]; [done|]. simpl.
    unfold toEpoch. by rewrite Z.mod_small.
  - intros Hnone. simpl. unfold setEpochNum. rewrite Hnone. simpl.
    destruct (store w) as [ev pa ep]. simpl in *. by subst ep.
Qed.

Lemma SetEpoch_then_GetEpoch_witness :
  (∃ w1 w2, SetEpoch healthy 5 seeded = Ret (tt, w1) ∧
            GetEpoch healthy w1 = Ret (5%Z, w2)) ∧
  (∃ w1 w2, SetEpoch healthy 5 unseeded = Ret (tt, w1) ∧
            store w1 = store unseeded ∧
            GetEpoch healthy w1 = Ret (1%Z, w2)).
Proof.
  assert (0 ≤ 5 < EpochMax)%Z as Hrange by (unfold EpochMax; lia).
  split.
  - destruct (SetEpoch_then_GetEpoch seeded 5 Hrange)
      as (w1 & w2 & Hset & _ & _ & _ & _ & Hget & _).
    exists w1, w2. split; [exact Hset | exact Hget].
  - destruct (SetEpoch_then_GetEpoch unseeded 5 Hrange)
      as (w1 & w2 & Hset & _ & _ & _ & _ & Hget & Hsame).
    exists w1, w2. split; [exact Hset|]. split; [apply Hsame; reflexivity | exact Hget].
Defined.

(** ** Fetching one event *)


(** C3, as stated, fails on the backfill: after a store-backed [GetEvent]
    the cache still misses the hash. *)
Lemma GetEvent_no_backfill :
  lruFind 1 (EventsHeaders oneEvent) = None ∧
  ∃ w', GetEvent healthy 1 oneEvent = Ret (Some (mkHeader 1 7 [] 0), w') ∧
        lruFind 1 (EventsHeaders w') = None.
Proof. split; [reflexivity|]. eexists. split; reflexivity. Qed.

(** C3, amended.  On a cache miss [GetEvent] sends the node lookup, and for
    a node that exists a second, separate query for its direct parents; it
    returns the header rebuilt from the node's [id] and [creator] with those
    parents, or [nil] when there is no such node, and leaves cache and store
    as they were. *)
Theorem GetEvent_store_backed (w : World) (h : EventHash) :
  lruFind h (EventsHeaders w) = None →
  GetEvent healthy h w =
    match Events (store w) !! h with
    | Some ff =>
        Ret (Some (withParents (unmarshal ff) (matchParents (store w) h)),
             mkWorld (store w) (EventsHeaders w) (logs w)
                     ((sent w ++ [MatchEventFields h]) ++ [MatchParents h]))
    | None =>
        Ret (None,
             mkWorld (store w) (EventsHeaders w) (logs w) (sent w ++ [MatchEventFields h]))
    end.
Proof.
  intros Hmiss. unfold GetEvent, bind. rewrite (lruGet_miss _ _ Hmiss). simpl.
  unfold matchEvent. by destruct (Events (store w) !! h).
Qed.

Lemma GetEvent_store_backed_witness :
  GetEvent healthy 1 oneEvent =
    Ret (Some (mkHeader 1 7 [] 0),
         mkWorld (store oneEvent) [] [] [MatchEventFields 1; MatchParents 1]).
Proof.
  rewrite (GetEvent_store_backed oneEvent 1); reflexivity.
Defined.

(** ** What happens to a failure *)




(** C4, as stated, fails: an error of [ctx.Run] inside the transaction is
    not swallowed, [HasEvent] and [FindAncestors] panic on it. *)
Lemma run_error_escalates :
  HasEvent runFailing 1 seeded = Panic ∧ FindAncestors runFailing 1 seeded = Panic.
Proof. split; reflexivity. Qed.

Lemma forEach_run (f : TxFault) (q : EventHash → Cypher) (ps : list EventHash) (w : World) :
  f ≠ RunFails →
  forEach ps (λ p, run f (q p)) w =
    Ret (tt, mkWorld (store w) (EventsHeaders w) (logs w) (sent w ++ map q ps)).
Proof.
  intros Hf. revert w. induction ps as [|p ps IH]; intros w; simpl.
  - unfold ret. rewrite app_nil_r. by destruct w.
  - unfold bind at 1. unfold run at 1, bind at 1, send.
    rewrite decide_False by done. unfold ret at 1. rewrite IH. simpl.
    by rewrite <- app_assoc.
Qed.


Lemma storeEvent_ok (e : EventHeaderData) (w : World) :
  storeEvent TxOk e w =
    match createEvent (store w) (marshal e) with
    | Some g1 =>
        Ret (tt, mkWorld (foldl (λ g' p, createParent g' (Hash e) p) g1 (Parents e))
                         (EventsHeaders w) (logs w) (sent w ++ storeQueries e))
    | None =>
        Ret (tt, mkWorld (store w) (EventsHeaders w) (logs w ++ [LogTrace])
                         (sent w ++ storeQueries e))
    end.
Proof.
  unfold storeEvent. unfold bind at 1 2 3. unfold run at 1, bind at 1, send. simpl.
  rewrite (forEach_run TxOk (CreateParent (Hash e))) by done. simpl. unfold getStore, bind. simpl.
  rewrite <- app_assoc. simpl. by destruct (createEvent (store w) (marshal e)).
Qed.

(** C4, amended.  A failure of a transaction as a whole is logged once at
    trace level and swallowed, with no second attempt: the [Load] loop goes
    on to the cache insert of the same task (so does a node the uniqueness
    constraint rejects), [SetEpoch] returns, [GetEpoch] answers 1, and a
    [GetEvent] that misses the cache answers [nil].  A session that cannot
    be opened or a query that cannot be run panics in every method. *)
Theorem transaction_failure_swallowed (w : World) (e : EventHeaderData) (h : EventHash)
    (num : Z) (d : Driver) :
  lruFind h (EventsHeaders w) = None →
  sessionFails d = true ∨ txAt d 0 = RunFails →
  (storeEvent TxFails e w = Ret (tt, traced w)
   ∧ (is_Some (Events (store w) !! Hash e) →
      storeEvent TxOk e w =
        Ret (tt, mkWorld (store w) (EventsHeaders w) (logs w ++ [LogTrace])
                         (sent w ++ storeQueries e)))
   ∧ SetEpoch txFailing num w = Ret (tt, traced w)
   ∧ GetEpoch txFailing w = Ret (1%Z, traced w)
   ∧ GetEvent txFailing h w = Ret (None, traced w))
  ∧ (HasEvent d h w = Panic ∧ GetEvent d h w = Panic ∧ FindAncestors d h w = Panic
     ∧ SetEpoch d num w = Panic ∧ GetEpoch d w = Panic
     ∧ storeEvent RunFails e w = Panic).
Proof.
  intros Hmiss Hd. split.
  - repeat split; try reflexivity.
    + intros [ff Hff]. rewrite storeEvent_ok. unfold createEvent. simpl. by rewrite Hff.
    + unfold GetEvent, bind. by rewrite (lruGet_miss _ _ Hmiss).
  - unfold HasEvent, GetEvent, FindAncestors, SetEpoch, GetEpoch, bind.
    rewrite (lruGet_miss _ _ Hmiss). unfold Session.
    destruct Hd as [-> | ->]; repeat split; try reflexivity;
      destruct (sessionFails d); reflexivity.
Qed.

Lemma transaction_failure_swallowed_witness :
  storeEvent TxFails (mkHeader 1 7 [] 0) seeded = Ret (tt, traced seeded)
  ∧ HasEvent runFailing 1 seeded = Panic.
Proof.
  destruct (transaction_failure_swallowed seeded (mkHeader 1 7 [] 0) 1 5 runFailing)
    as [(Hstore & _) (Hhas & _)].
  - reflexivity.
  - right. reflexivity.
  - split; [exact Hstore | exact Hhas].
Defined.

(** The completion of the swallow in [Load]: with the transaction failing,
    the loop still moves on to the cache insert of the same task. *)
Lemma Load_continues_after_failure (s : Sys) (i : nat) (t : task) (elapsed : bool) :
  loader s = LoadCommit i t →
  step (ALoad txFailing elapsed) s =
    Next (mkSys (synced s) (out s) (closed s) (calls s) (wgs s) (LoadCache i t)
                (total s) (last s) (traced (db s)) (trace s ++ [OCommit i])).
Proof. intros Hpc. simpl. unfold stepLoad. rewrite Hpc. reflexivity. Qed.

(** ** Ancestors *)

Lemma FindAncestors_healthy (h : EventHash) (w : World) :
  FindAncestors healthy h w =
    Ret (matchAncestors (store w) h,
         mkWorld (store w) (EventsHeaders w) (logs w) (sent w ++ [MatchAncestors h])).
Proof. reflexivity. Qed.

Lemma isEvent_insert (g : Graph) (ff : fields) (E : list (EventHash * EventHash))
    (ep : list Z) (x : EventHash) :
  isEvent g x = true → isEvent (mkGraph (<[f_id ff := ff]> (Events g)) E ep) x = true.
Proof.
  unfold isEvent. rewrite !bool_decide_eq_true. simpl. intros [v Hv].
  destruct (decide (f_id ff = x)) as [->|Hne].
  - rewrite lookup_insert_eq. eauto.
  - rewrite lookup_insert_ne by done. eauto.
Qed.

Lemma createParents_present (g : Graph) (id : EventHash) (ps : list EventHash) :
  isEvent g id = true →
  (∀ p, p ∈ ps → isEvent g p = true) →
  foldl (λ g' p, createParent g' id p) g ps =
    mkGraph (Events g) (PARENT g ++ map (λ p, (id, p)) ps) (Epochs g).
Proof.
  revert g. induction ps as [|p ps IH]; intros g Hid Hps; simpl.
  - rewrite app_nil_r. by destruct g.
  - unfold createParent at 2. rewrite Hid, (Hps p) by set_solver. simpl.
    rewrite IH; simpl.
    + by rewrite <- app_assoc.
    + done.
    + intros q Hq. apply Hps. set_solver.
Qed.

Lemma tc_mono_edges (E E' : list (EventHash * EventHash)) (a b : EventHash) :
  (∀ x y, parentOf E x y → parentOf E' x y) →
  tc (parentOf E) a b → tc (parentOf E') a b.
Proof.
  intros Hsub Hreach. induction Hreach as [a b Hedge | a b c Hedge _ IH].
  - apply tc_once. by apply Hsub.
  - eapply tc_l; [by apply Hsub|done].
Qed.

(** C9.  [FindAncestors h] returns, without duplicates, exactly the event
    nodes reachable from the node [h] along one or more [PARENT]
    relationships; [h] itself is not among them unless it lies on a cycle.
    After an event whose parents are all in the store has been committed,
    the answer for it contains each parent and everything the answer for
    that parent contains. *)
Theorem FindAncestors_transitive_closure (w : World) (h : EventHash) (e : EventHeaderData) :
  (∃ l w', FindAncestors healthy h w = Ret (l, w') ∧ store w' = store w ∧
      NoDup l ∧
      (∀ y, y ∈ l ↔ isEvent (store w) h = true ∧ isEvent (store w) y = true ∧
                     tc (parentOf (PARENT (store w))) h y) ∧
      (¬ tc (parentOf (PARENT (store w))) h h → h ∉ l))
  ∧ (Events (store w) !! Hash e = None →
     (∀ p, p ∈ Parents e → isEvent (store w) p = true) →
     ∃ w1 l w2, storeEvent TxOk e w = Ret (tt, w1) ∧
       FindAncestors healthy (Hash e) w1 = Ret (l, w2) ∧
       ∀ p, p ∈ Parents e →
         p ∈ l ∧ ∀ lp wp, FindAncestors healthy p w1 = Ret (lp, wp) → lp ⊆ l).
Proof.
  split.
  - do 2 eexists. split; [apply FindAncestors_healthy|]. split; [done|].
    split; [apply NoDup_matchAncestors|]. split; [apply elem_of_matchAncestors|].
    intros Hacyclic Hin. apply elem_of_matchAncestors in Hin. naive_solver.
  - intros Hfresh Hparents. rewrite storeEvent_ok. unfold createEvent. simpl.
    rewrite Hfresh. do 3 eexists. split; [reflexivity|].
    split; [apply FindAncestors_healthy|]. simpl.
    rewrite createParents_present; simpl.
    2:{ unfold isEvent. apply bool_decide_eq_true. simpl.
        rewrite lookup_insert_eq. eauto. }
    2:{ intros p Hp. by apply (isEvent_insert _ (marshal e)), Hparents. }
    set (g1 := mkGraph _ _ _).
    assert (isEvent g1 (Hash e) = true) as Hself.
    { unfold isEvent. apply bool_decide_eq_true. simpl. rewrite lookup_insert_eq. eauto. }
    assert (∀ p, p ∈ Parents e → parentOf (PARENT g1) (Hash e) p) as Hedge.
    { intros p Hp. unfold parentOf. simpl. apply elem_of_app. right.
      apply list_elem_of_fmap. by exists p. }
    intros p Hp. split.
    + apply elem_of_matchAncestors. split; [done|]. split.
      * by apply (isEvent_insert _ (marshal e)), Hparents.
      * apply tc_once. by apply Hedge.
    + intros lp wp Hlp. rewrite FindAncestors_healthy in Hlp. injection Hlp as <- _.
      simpl. fold g1. intros y Hy. apply elem_of_matchAncestors in Hy as (_ & Hy & Hreach).
      apply elem_of_matchAncestors. split; [done|]. split; [done|].
      eapply tc_l; [by apply Hedge|done].
Qed.

Lemma FindAncestors_transitive_closure_witness :
  ∃ w1 l w2, storeEvent TxOk (mkHeader 2 7 [1%N] 0) oneEvent = Ret (tt, w1) ∧
             FindAncestors healthy 2 w1 = Ret (l, w2) ∧ 1%N ∈ l.
Proof.
  destruct (FindAncestors_transitive_closure oneEvent 1 (mkHeader 2 7 [1%N] 0))
    as [_ Hsaved].
  destruct Hsaved as (w1 & l & w2 & Hstore & Hfind & Hin).
  - vm_compute. reflexivity.
  - intros p Hp. apply list_elem_of_singleton in Hp as ->. vm_compute. reflexivity.
  - exists w1, l, w2. split; [exact Hstore|]. split; [exact Hfind|].
    apply (Hin 1%N). by left.
Defined.
(** ** Queries against the handle *)

Ltac drive d H :=
  unfold Session, ReadTransaction, run, swallow, ignoreFakeError, assertType,
    logLine, send, getStore, bind, ret, panic in H;
  destruct (sessionFails d); [done|];
  destruct (txAt d 0); try done; destruct (txAt d 1); simpl in H; try done;
  repeat match type of H with
         | context [match ?x with _ => _ end] => destruct x; try done; simpl in H
         end;
  simplify_eq/=.

Lemma cacheGet_eq (k : EventHash) (w : World) :
  cacheGet k w =
    Ret ((lruGet k (EventsHeaders w)).1,
         mkWorld (store w) (lruGet k (EventsHeaders w)).2 (logs w) (sent w)).
Proof. unfold cacheGet. by destruct (lruGet k (EventsHeaders w)). Qed.

Lemma lruGet_miss_eq (k : EventHash) (c : Cache) :
  (lruGet k c).1 = None → (lruGet k c).2 = c.
Proof. unfold lruGet. by destruct (lruFind k c). Qed.

(** What a query that returns leaves of the handle: the store as it was,
    the cache as its look-up left it. *)
Lemma HasEvent_frame (d : Driver) (h : EventHash) (w w' : World) (b : bool) :
  HasEvent d h w = Ret (b, w') →
  store w' = store w ∧ EventsHeaders w' = (lruGet h (EventsHeaders w)).2.
Proof.
  unfold HasEvent. unfold bind at 1. rewrite cacheGet_eq.
  destruct ((lruGet h (EventsHeaders w)).1) eqn:Hhit.
  - by intros [= _ <-].
  - rewrite (lruGet_miss_eq _ _ Hhit). intros Hq. drive d Hq; done.
Qed.

Lemma GetEvent_frame (d : Driver) (h : EventHash) (w w' : World)
    (r : option EventHeaderData) :
  GetEvent d h w = Ret (r, w') →
  store w' = store w ∧ EventsHeaders w' = (lruGet h (EventsHeaders w)).2.
Proof.
  unfold GetEvent. unfold bind at 1. rewrite cacheGet_eq.
  destruct ((lruGet h (EventsHeaders w)).1) eqn:Hhit.
  - by intros [= _ <-].
  - rewrite (lruGet_miss_eq _ _ Hhit). intros Hq. drive d Hq; done.
Qed.

Lemma FindAncestors_frame (d : Driver) (h : EventHash) (w w' : World)
    (l : list EventHash) :
  FindAncestors d h w = Ret (l, w') →
  store w' = store w ∧ EventsHeaders w' = EventsHeaders w.
Proof. intros Hq. unfold FindAncestors, bind in Hq. drive d Hq; done. Qed.

Lemma GetEpoch_frame (d : Driver) (w w' : World) (n : Z) :
  GetEpoch d w = Ret (n, w') →
  store w' = store w ∧ EventsHeaders w' = EventsHeaders w.
Proof. intros Hq. unfold GetEpoch, bind in Hq. drive d Hq; done. Qed.

Lemma query_inv {A} (s s' : Sys) (o : Obs) (m : M A) :
  query s o m = Next s' →
  ∃ a w', m (db s) = Ret (a, w') ∧
    s' = mkSys (synced s) (out s) (closed s) (calls s) (wgs s) (loader s)
               (total s) (last s)
               (mkWorld (store w') (EventsHeaders w') (logs (db s)) (sent (db s)))
               (trace s ++ [o]).
Proof.
  unfold query. destruct (m (db s)) as [[a w']|]; [|done].
  intros [= <-]. by exists a, w'.
Qed.

(** A query changes the cache by its look-up and nothing else. *)
Lemma step_read (a : action) (s s' : Sys) :
  step a s = Next s' → isRead a →
  ∃ o, s' = afterRead s (lookedUp o (EventsHeaders (db s))) o ∧ quiet o.
Proof.
  intros Hstep Hread. destruct a; try done; cbn [step] in Hstep;
    apply query_inv in Hstep as (x & w' & Hm & ->).
  - apply HasEvent_frame in Hm as [Hs Hc]. exists (OLookup h).
    unfold afterRead, lookedUp. by rewrite Hs, Hc.
  - apply GetEvent_frame in Hm as [Hs Hc]. exists (OLookup h).
    unfold afterRead, lookedUp. by rewrite Hs, Hc.
  - apply FindAncestors_frame in Hm as [Hs Hc]. exists OQuery.
    unfold afterRead, lookedUp. by rewrite Hs, Hc.
  - apply GetEpoch_frame in Hm as [Hs Hc]. exists OQuery.
    unfold afterRead, lookedUp. by rewrite Hs, Hc.
Qed.

(** The cases of a query in a proof about one step. *)
Ltac read_case Hstep lem :=
  let o := fresh "o" in let Hquiet := fresh "Hquiet" in
  destruct (step_read _ _ _ Hstep I) as (o & -> & Hquiet); by apply lem.

(** ** The pipeline: bookkeeping *)

Ltac step_cases H :=
  unfold step, stepLoad, withDb in H;
  repeat case_match; simplify_eq/=.

Lemma enqs_app (a b : list Obs) : enqs (a ++ b) = enqs a ++ enqs b.
Proof. apply omap_app. Qed.
Lemma deqs_app (a b : list Obs) : deqs (a ++ b) = deqs a ++ deqs b.
Proof. apply omap_app. Qed.
Lemma commits_app (a b : list Obs) : commits (a ++ b) = commits a ++ commits b.
Proof. apply omap_app. Qed.
Lemma cached_app (a b : list Obs) : cached (a ++ b) = cached a ++ cached b.
Proof. apply omap_app. Qed.
Lemma dones_app (a b : list Obs) : dones (a ++ b) = dones a ++ dones b.
Proof. apply omap_app. Qed.
Lemma summaries_app (a b : list Obs) : summaries (a ++ b) = summaries a + summaries b.
Proof. unfold summaries. by rewrite omap_app, length_app. Qed.
Lemma cacheOps_app (a b : list Obs) : cacheOps (a ++ b) = cacheOps a ++ cacheOps b.
Proof. apply omap_app. Qed.

Ltac snoc :=
  rewrite ?enqs_app, ?deqs_app, ?commits_app, ?cached_app, ?dones_app, ?summaries_app;
  cbn [enqs deqs commits cached dones summaries omap list_omap length];
  rewrite ?app_nil_r, ?Nat.add_0_r.

Lemma elem_of_enqs (i : nat) (tr : list Obs) : i ∈ enqs tr ↔ OEnqueue i ∈ tr.
Proof.
  unfold enqs. rewrite list_elem_of_omap. split.
  - intros (o & Ho & Hf). destruct o; by simplify_eq.
  - intros Ho. by exists (OEnqueue i).
Qed.
Lemma elem_of_deqs (i : nat) (tr : list Obs) : i ∈ deqs tr ↔ ODequeue i ∈ tr.
Proof.
  unfold deqs. rewrite list_elem_of_omap. split.
  - intros (o & Ho & Hf). destruct o; by simplify_eq.
  - intros Ho. by exists (ODequeue i).
Qed.
Lemma elem_of_commits (i : nat) (tr : list Obs) : i ∈ commits tr ↔ OCommit i ∈ tr.
Proof.
  unfold commits. rewrite list_elem_of_omap. split.
  - intros (o & Ho & Hf). destruct o; by simplify_eq.
  - intros Ho. by exists (OCommit i).
Qed.
Lemma elem_of_cached (i : nat) (e : EventHeaderData) (tr : list Obs) :
  (i, e) ∈ cached tr ↔ OCacheAdd i e ∈ tr.
Proof.
  unfold cached. rewrite list_elem_of_omap. split.
  - intros (o & Ho & Hf). destruct o; by simplify_eq.
  - intros Ho. by exists (OCacheAdd i e).
Qed.
Lemma elem_of_dones (i : nat) (tr : list Obs) : i ∈ dones tr ↔ ODone i ∈ tr.
Proof.
  unfold dones. rewrite list_elem_of_omap. split.
  - intros (o & Ho & Hf). destruct o; by simplify_eq.
  - intros Ho. by exists (ODone i).
Qed.

Lemma InvQueue_init (w : World) (sync : bool) : InvQueue (newStore w sync).
Proof.
  split; simpl; try done.
  - unfold outCap. lia.
  - constructor.
  - intros i Hi. by apply elem_of_nil in Hi.
Qed.

Lemma InvQueue_read (s : Sys) (c : Cache) (o : Obs) :
  InvQueue s → quiet o → InvQueue (afterRead s c o).
Proof.
  intros [Hcap Hfifo Hdeq Hcom Hcac Hnd Hsent Hexit Hsum] Hquiet.
  destruct o; try done; split; simpl; snoc; done.
Qed.

Lemma InvQueue_step (a : action) (s s' : Sys) :
  InvQueue s → step a s = Next s' → InvQueue s'.
Proof.
  intros Hinv Hstep.
  destruct a; try (read_case Hstep InvQueue_read).
  all: destruct s as [sync q cl cs ws pc tot lst w tr]; step_cases Hstep.
  all: destruct Hinv as [Hcap Hfifo Hdeq Hcom Hcac Hnd Hsent Hexit Hsum]; simpl in *.
  all: rewrite ?app_nil_r in *.
  all: split; simpl; snoc; try done; try congruence.
  - intros j Hj. destruct (Hsent j Hj); [left|right]; by apply lookup_app_l_Some.
  - intros j Hj. destruct (Hsent j Hj); [left|right]; by apply lookup_app_l_Some.
  - rewrite length_app. simpl. lia.
  - by rewrite Hfifo, fmap_app, app_assoc.
  - apply NoDup_app. split; [done|]. split; [|apply NoDup_singleton].
    intros j Hj ->%list_elem_of_singleton. destruct (Hsent _ Hj); congruence.
  - intros j [Hj| ->%list_elem_of_singleton]%elem_of_app.
    + destruct (decide (i = j)) as [->|Hne].
      * left. apply list_lookup_insert_eq. by eapply lookup_lt_Some.
      * rewrite list_lookup_insert_ne by done. by apply Hsent.
    + left. apply list_lookup_insert_eq. by eapply lookup_lt_Some.
  - intros Hpc. by destruct (Hexit Hpc).
  - intros j Hj. destruct (decide (i = j)) as [->|Hne].
    + right. apply list_lookup_insert_eq. by eapply lookup_lt_Some.
    + rewrite list_lookup_insert_ne by done. by apply Hsent.
  - intros Hpc. by destruct (Hexit Hpc).
  - lia.
  - simpl in Hcap. lia.
  - by rewrite Hfifo, <- app_assoc.
  - by rewrite Hcac, fmap_app.
Qed.

Lemma wgAdd_inv (i : nat) (delta : Z) (h h' : list Z) :
  wgAdd i delta h = Ret h' →
  ∃ c, h !! i = Some c ∧ (0 ≤ c + delta)%Z ∧ h' = <[i := (c + delta)%Z]> h.
Proof.
  unfold wgAdd. destruct (h !! i) as [c|]; [|done].
  case_decide; [done|]. intros [= <-]. exists c. split; [done|]. split; [lia|done].
Qed.

Lemma InvTask_init (w : World) (sync : bool) : InvTask (newStore w sync).
Proof.
  split; simpl; try done.
  - intros i e Hi. by apply elem_of_nil in Hi.
  - intros i e e' Hi. by apply elem_of_nil in Hi.
  - intros i t Hi. by apply elem_of_nil in Hi.
  - intros i. lia.
  - intros i e Hi. by apply elem_of_nil in Hi.
Qed.

Lemma dones_sent (s : Sys) (i : nat) :
  InvQueue s → i ∈ deqs (trace s) → i < length (calls s).
Proof.
  intros [_ Hfifo _ _ _ _ Hsent _ _] Hi.
  destruct (Hsent i) as [H|H]; [|by eapply lookup_lt_Some..].
  rewrite Hfifo. apply elem_of_app. by left.
Qed.

Lemma NoDup_deqs (s : Sys) : InvQueue s → NoDup (deqs (trace s)).
Proof.
  intros [_ Hfifo _ _ _ Hnd _ _ _]. rewrite Hfifo in Hnd.
  by apply NoDup_app in Hnd as [? _].
Qed.

Ltac app_old H :=
  apply elem_of_app in H as [H | H%list_elem_of_singleton]; [|discriminate H].
Ltac in_old := apply elem_of_app; left.
Ltac mem H :=
  clear -H;
  repeat first [rewrite elem_of_app in H | rewrite elem_of_cons in H | rewrite elem_of_nil in H];
  repeat first [rewrite elem_of_app | rewrite elem_of_cons | rewrite elem_of_nil];
  tauto.

(** The parts of [InvTask] a step leaves alone. *)
Ltac task_frame Hcall Huniq Hflight Hsend Hcc :=
  let j := fresh "j" in let u := fresh "u" in let e0 := fresh "e0" in
  let e1 := fresh "e1" in let Hj := fresh "Hj" in let Hj' := fresh "Hj'" in
  first
  [ solve [intros j e0 Hj; app_old Hj; rewrite ?length_insert; by eapply Hcall]
  | solve [intros j e0 e1 Hj Hj'; app_old Hj; app_old Hj'; by eapply Huniq]
  | solve [intros j u Hj; destruct (Hflight j u) as [? ?]; [mem Hj|];
           split; [done|first [done | in_old; done]]]
  | solve [intros j u Hj; destruct (Hsend j u Hj); split; [done|in_old; done]]
  | solve [intros j e0 Hj; in_old; by apply Hcc] ].

Lemma InvTask_read (s : Sys) (c : Cache) (o : Obs) :
  InvTask s → quiet o → InvTask (afterRead s c o).
Proof.
  intros [Hlen Hcall Huniq Hflight Hsend Hwg Hcc] Hquiet.
  destruct o; try done; split; simpl; snoc; try done.
  all: task_frame Hcall Huniq Hflight Hsend Hcc.
Qed.

Lemma InvTask_step (a : action) (s s' : Sys) :
  InvQueue s → InvTask s → step a s = Next s' → InvTask s'.
Proof.
  intros Hq Hinv Hstep.
  pose proof (dones_sent s) as Hds. pose proof (NoDup_deqs s Hq) as Hndd.
  specialize (λ i, Hds i Hq).
  destruct a; try (read_case Hstep InvTask_read).
  all: destruct s as [sync q cl cs ws pc tot lst w tr]; step_cases Hstep.
  all: destruct Hq as [Hcap Hfifo Hdeq Hcom Hcac Hnd Hsent Hexit Hsum]; simpl in *.
  all: destruct Hinv as [Hlen Hcall Huniq Hflight Hsend Hwg Hcc]; simpl in *.
  all: rewrite ?app_nil_r in *.
  all: split; simpl; snoc; try done; try congruence.
  all: try (rewrite ?length_insert; done).
  all: try task_frame Hcall Huniq Hflight Hsend Hcc.
  all: try match goal with H : wgAdd _ _ _ = Ret _ |- _ => rename H into Hwa end.
  all: try match goal with H : Done _ _ = Ret _ |- _ => rename H into Hdn end.
  all: try match goal with H : _ !! _ = Some (SaveSend _) |- _ => rename H into Hpc end.
  all: try match goal with H : _ !! _ = Some SaveWait |- _ => rename H into Hpc end.
  - (* call, synced *)
    apply wgAdd_inv in Hwa as (c & _ & _ & ->).
    rewrite length_insert, !length_app. simpl. lia.
  - intros j e0 [Hj | [= -> ->]%list_elem_of_singleton]%elem_of_app;
      rewrite length_app; simpl; [apply Hcall in Hj|]; lia.
  - intros j e0 e' [Hj | [= -> ->]%list_elem_of_singleton]%elem_of_app
                   [Hj' | Hj'%list_elem_of_singleton]%elem_of_app.
    + by eapply Huniq.
    + injection Hj' as -> _. apply Hcall in Hj. lia.
    + apply Hcall in Hj'. lia.
    + by injection Hj'.
  - intros j u Hj. destruct (decide (j < length cs)) as [Hlt|Hge].
    + rewrite lookup_app_l in Hj by done. destruct (Hsend j u Hj).
      split; [done|by in_old].
    + rewrite lookup_app_r in Hj by lia.
      destruct (j - length cs) as [|k] eqn:Hk; [|done]. simpl in Hj.
      injection Hj as <-. replace j with (length cs) by lia.
      split; [done|]. apply elem_of_app. right. by apply list_elem_of_singleton.
  - apply wgAdd_inv in Hwa as (c & Hc & _ & ->).
    rewrite lookup_app_r in Hc by lia. rewrite Hlen, Nat.sub_diag in Hc.
    injection Hc as <-. intros j Hj. rewrite length_app in Hj. simpl in Hj.
    destruct (decide (j = length cs)) as [->|Hne].
    + rewrite list_lookup_insert_eq by (rewrite length_app; simpl; lia).
      rewrite bool_decide_true; [done|].
      intros Hin. assert (length cs < length cs); [|lia].
      apply Hds. rewrite Hdeq. apply elem_of_app. by left.
    + rewrite list_lookup_insert_ne by done. rewrite lookup_app_l by lia.
      apply Hwg. lia.
  - (* call, not synced *)
    rewrite !length_app. simpl. lia.
  - intros j e0 [Hj | [= -> ->]%list_elem_of_singleton]%elem_of_app;
      rewrite length_app; simpl; [apply Hcall in Hj|]; lia.
  - intros j e0 e' [Hj | [= -> ->]%list_elem_of_singleton]%elem_of_app
                   [Hj' | Hj'%list_elem_of_singleton]%elem_of_app.
    + by eapply Huniq.
    + injection Hj' as -> _. apply Hcall in Hj. lia.
    + apply Hcall in Hj'. lia.
    + by injection Hj'.
  - intros j u Hj. destruct (decide (j < length cs)) as [Hlt|Hge].
    + rewrite lookup_app_l in Hj by done. destruct (Hsend j u Hj).
      split; [done|by in_old].
    + rewrite lookup_app_r in Hj by lia.
      destruct (j - length cs) as [|k] eqn:Hk; [|done]. simpl in Hj.
      injection Hj as <-. replace j with (length cs) by lia.
      split; [done|]. apply elem_of_app. right. by apply list_elem_of_singleton.
  - intros j Hj. rewrite length_app in Hj. simpl in Hj.
    destruct (decide (j = length cs)) as [->|Hne].
    + rewrite lookup_app_r by lia. by rewrite Hlen, Nat.sub_diag.
    + rewrite lookup_app_l by lia. apply Hwg. lia.
  - (* send *)
    intros j u [[Hj | Hj%list_elem_of_singleton]%elem_of_app | Hj]%elem_of_app.
    + destruct (Hflight j u) as [? ?]; [apply elem_of_app; by left|].
      split; [done|by in_old].
    + injection Hj as -> ->. destruct (Hsend i t Hpc). split; [done|by in_old].
    + destruct (Hflight j u) as [? ?]; [apply elem_of_app; by right|].
      split; [done|by in_old].
  - intros j u Hj. destruct (decide (i = j)) as [->|Hne].
    + rewrite list_lookup_insert_eq in Hj by (by eapply lookup_lt_Some). done.
    + rewrite list_lookup_insert_ne in Hj by done.
      destruct (Hsend j u Hj). split; [done|by in_old].
  - (* return *)
    intros j u Hj. destruct (decide (i = j)) as [->|Hne].
    + rewrite list_lookup_insert_eq in Hj by (by eapply lookup_lt_Some). done.
    + rewrite list_lookup_insert_ne in Hj by done.
      destruct (Hsend j u Hj). split; [done|by in_old].
  - (* cache *)
    intros j e0 [Hj | [= -> ->]%list_elem_of_singleton]%elem_of_app.
    + in_old. by apply Hcc.
    + destruct (Hflight i t) as [? ?]; [apply elem_of_app; right; by left|].
      in_old. done.
  - (* done *)
    destruct (Hflight i t) as [Ht _]; [apply elem_of_app; right; by left|].
    unfold Done in Hdn. rewrite Ht in Hdn. simpl in Hdn.
    destruct sync; [|by injection Hdn as <-].
    apply wgAdd_inv in Hdn as (c & _ & _ & ->). by rewrite length_insert.
  - destruct (Hflight i t) as [Ht Hc]; [apply elem_of_app; right; by left|].
    unfold Done in Hdn. rewrite Ht in Hdn. simpl in Hdn. apply Hcall in Hc.
    assert (i ∉ dones tr) as Hfresh.
    { rewrite Hdeq in Hndd. apply NoDup_app in Hndd as (_ & Hdisj & _).
      intros Hin. apply (Hdisj _ Hin). by left. }
    intros j Hj. destruct sync; simpl in *.
    + apply wgAdd_inv in Hdn as (c & Hc' & _ & ->).
      rewrite (Hwg i Hc), bool_decide_true in Hc' by done. injection Hc' as <-.
      destruct (decide (i = j)) as [->|Hne].
      * rewrite list_lookup_insert_eq by lia.
        rewrite bool_decide_false; [done|]. intros Hn. apply Hn.
        apply elem_of_app. right. by left.
      * rewrite list_lookup_insert_ne by done. rewrite (Hwg j Hj).
        rewrite (bool_decide_ext (j ∉ dones tr ++ [i]) (j ∉ dones tr)); [done|].
        rewrite elem_of_app, list_elem_of_singleton. naive_solver.
    + injection Hdn as <-. by apply Hwg.
Qed.

Lemma before_app (a b : Obs) (tr l : list Obs) : before a b tr → before a b (tr ++ l).
Proof.
  intros (l1 & l2 & l3 & ->). exists l1, l2, (l3 ++ l).
  by rewrite <- !app_assoc, <- !app_comm_cons, <- app_assoc.
Qed.

Lemma before_snoc (a b : Obs) (tr : list Obs) : a ∈ tr → before a b (tr ++ [b]).
Proof.
  intros (l1 & l2 & ->)%list_elem_of_split. exists l1, l2, [].
  by rewrite <- app_assoc.
Qed.

Lemma before_elem_of (a b : Obs) (tr : list Obs) : before a b tr → a ∈ tr ∧ b ∈ tr.
Proof.
  intros (l1 & l2 & l3 & ->). split.
  - apply elem_of_app. right. by left.
  - apply elem_of_app. right. right. apply elem_of_app. right. by left.
Qed.

Lemma InvOrder_init (w : World) (sync : bool) : InvOrder (newStore w sync).
Proof. split; simpl; intros; by match goal with H : _ ∈ [] |- _ => apply elem_of_nil in H end. Qed.

(** The parts of [InvOrder] a step leaves alone. *)
Ltac order_frame :=
  let j := fresh "j" in let e0 := fresh "e0" in let Hj := fresh "Hj" in
  let Hs := fresh "Hs" in
  first
  [ solve [intros j Hj; app_old Hj; apply before_app; eauto]
  | solve [intros j e0 Hj; app_old Hj; apply before_app; eauto]
  | solve [intros j Hs Hj; app_old Hj; apply before_app; eauto]
  | solve [intros j Hj; app_old Hj;
           match goal with H : ∀ i, _ → ∃ e, before _ _ _ |- _ =>
             destruct (H j Hj) as [e0 ?] end;
           exists e0; by apply before_app] ].

Lemma InvOrder_read (s : Sys) (c : Cache) (o : Obs) :
  InvOrder s → quiet o → InvOrder (afterRead s c o).
Proof.
  intros [Oenq Odeq Ocom Ocac Odone Oret] Hquiet.
  destruct o; try done; split; simpl.
  all: order_frame.
Qed.

Lemma InvOrder_step (a : action) (s s' : Sys) :
  InvQueue s → InvTask s → InvOrder s → step a s = Next s' → InvOrder s'.
Proof.
  intros Hq Ht Hinv Hstep.
  destruct a; try (read_case Hstep InvOrder_read).
  all: destruct s as [sync q cl cs ws pc tot lst w tr]; step_cases Hstep.
  all: destruct Hq as [Hcap Hfifo Hdeq Hcom Hcac Hnd Hsent Hexit Hsum]; simpl in *.
  all: destruct Ht as [Hlen Hcall Huniq Hflight Hsend Hwg Hcc]; simpl in *.
  all: destruct Hinv as [Oenq Odeq Ocom Ocac Odone Oret]; simpl in *.
  all: rewrite ?app_nil_r in *.
  all: split; simpl; try done.
  all: try order_frame.
  all: try match goal with H : _ !! _ = Some (SaveSend _) |- _ => rename H into Hpc end.
  all: try match goal with H : _ !! _ = Some SaveWait |- _ => rename H into Hpc end.
  - (* send *)
    intros j [Hj | [= ->]%list_elem_of_singleton]%elem_of_app.
    + destruct (Oenq j Hj) as [e0 ?]. exists e0. by apply before_app.
    + destruct (Hsend i t Hpc) as [_ Hc]. exists (event t). by apply before_snoc.
  - (* return *)
    intros j -> [Hj | [= ->]%list_elem_of_singleton]%elem_of_app.
    + apply before_app. eauto.
    + apply before_snoc, elem_of_dones.
      match goal with H : negb true || wgIdle _ _ = true |- _ =>
        simpl in H; unfold wgIdle in H; apply bool_decide_eq_true in H; rename H into Hidle
      end.
      rewrite Hwg in Hidle by (by eapply lookup_lt_Some). simpl in Hidle.
      destruct (decide (i ∈ dones tr)) as [?|Hn]; [done|].
      rewrite bool_decide_true in Hidle by done. done.
  - (* receive *)
    intros j [Hj | [= ->]%list_elem_of_singleton]%elem_of_app.
    + apply before_app. eauto.
    + apply before_snoc, elem_of_enqs. rewrite Hfifo. apply elem_of_app. right. by left.
  - (* commit *)
    intros j [Hj | [= ->]%list_elem_of_singleton]%elem_of_app.
    + apply before_app. eauto.
    + apply before_snoc, elem_of_deqs. rewrite Hdeq. apply elem_of_app. right. by left.
  - (* cache *)
    intros j e0 [Hj | [= -> ->]%list_elem_of_singleton]%elem_of_app.
    + apply before_app. eauto.
    + apply before_snoc, elem_of_commits. rewrite <- Hcom, Hdeq.
      apply elem_of_app. right. by left.
  - (* done *)
    intros j [Hj | [= ->]%list_elem_of_singleton]%elem_of_app.
    + destruct (Odone j Hj) as [e0 ?]. exists e0. by apply before_app.
    + assert (i ∈ (cached tr).*1) as Hin.
      { rewrite <- Hcac, Hdeq. apply elem_of_app. right. by left. }
      apply list_elem_of_fmap in Hin as ([j e0] & -> & Hin). simpl.
      exists e0. by apply before_snoc, elem_of_cached.
Qed.

(** ** The cache under insertions *)

Lemma lruFind_remove_ne (k k' : EventHash) (c : Cache) :
  k' ≠ k → lruFind k (lruRemove k' c) = lruFind k c.
Proof.
  intros Hne. induction c as [|[k0 v0] c IH]; simpl; [done|].
  destruct (decide (k0 = k')) as [->|Hk0]; simpl.
  - rewrite decide_False by done. done.
  - by rewrite IH.
Qed.

Lemma lruPos_remove_ne (k k' : EventHash) (c : Cache) (p : nat) :
  k' ≠ k → lruPos k c = Some p →
  ∃ p', lruPos k (lruRemove k' c) = Some p' ∧ p' ≤ p.
Proof.
  intros Hne. revert p. induction c as [|[k0 v0] c IH]; intros p; simpl; [done|].
  destruct (decide (k0 = k)) as [->|Hk0].
  - intros [= <-]. rewrite decide_False by done. simpl. rewrite decide_True by done.
    exists 0. split; [done|lia].
  - destruct (lruPos k c) as [p0|] eqn:Hp0; simpl; [|done]. intros [= <-].
    destruct (IH p0 eq_refl) as (p' & Hp' & Hle).
    destruct (decide (k0 = k')) as [->|?]; simpl.
    + exists p'. split; [done|lia].
    + rewrite decide_False by done. rewrite Hp'. simpl. exists (S p'). split; [done|lia].
Qed.

Lemma lruPos_lt (k : EventHash) (c : Cache) (p : nat) :
  lruPos k c = Some p → p < length c.
Proof.
  revert p. induction c as [|[k0 v0] c IH]; intros p; simpl; [done|].
  destruct (decide (k0 = k)); [intros [= <-]; lia|].
  destruct (lruPos k c) as [p0|]; simpl; [|done]. intros [= <-].
  specialize (IH p0 eq_refl). lia.
Qed.

Lemma lruFind_removelast (k : EventHash) (c : Cache) (p : nat) :
  lruPos k c = Some p → S p < length c →
  lruFind k (removelast c) = lruFind k c ∧ lruPos k (removelast c) = Some p.
Proof.
  revert p. induction c as [|[k0 v0] c IH]; intros p; [done|].
  intros Hp Hlen. destruct c as [|kv c']; [simpl in Hlen; lia|].
  change (removelast ((k0, v0) :: kv :: c')) with ((k0, v0) :: removelast (kv :: c')).
  remember (kv :: c') as c0 eqn:Hc0. simpl in Hp, Hlen |- *.
  destruct (decide (k0 = k)); [done|].
  destruct (lruPos k c0) as [p0|] eqn:Hp0; [|done].
  simpl in Hp. injection Hp as <-.
  destruct (IH p0 eq_refl) as [-> ->]; [lia|]. done.
Qed.

Lemma lruFind_head (k : EventHash) (v : EventHeaderData) (c : Cache) :
  lruFind k ((k, v) :: c) = Some v ∧ lruPos k ((k, v) :: c) = Some 0.
Proof. cbn [lruFind lruPos]. by case_decide. Qed.

Lemma lruAdd_same (k : EventHash) (v : EventHeaderData) (c : Cache) :
  lruFind k (lruAdd k v c) = Some v ∧ lruPos k (lruAdd k v c) = Some 0.
Proof.
  unfold lruAdd. destruct (lruFind k c); [apply lruFind_head|].
  case_decide as Hlen; [|apply lruFind_head].
  destruct c as [|kv c']; [unfold lruSize in Hlen; simpl in Hlen; lia|].
  change (removelast ((k, v) :: kv :: c')) with ((k, v) :: removelast (kv :: c')).
  apply lruFind_head.
Qed.

Lemma lruFind_tail (k k' : EventHash) (v' : EventHeaderData) (c : Cache) :
  k' ≠ k →
  lruFind k ((k', v') :: c) = lruFind k c ∧
  lruPos k ((k', v') :: c) = S <$> lruPos k c.
Proof. intros Hne. cbn [lruFind lruPos]. by case_decide. Qed.

Lemma lruAdd_keeps (k k' : EventHash) (v v' : EventHeaderData) (c : Cache) (p : nat) :
  lruFind k c = Some v → lruPos k c = Some p → k' ≠ k → S p < lruSize →
  lruFind k (lruAdd k' v' c) = Some v ∧
  ∃ p', lruPos k (lruAdd k' v' c) = Some p' ∧ p' ≤ S p.
Proof.
  intros Hfind Hpos Hne Hp. unfold lruAdd. destruct (lruFind k' c).
  - destruct (lruFind_tail k k' v' (lruRemove k' c) Hne) as [-> ->].
    rewrite lruFind_remove_ne by done. split; [done|].
    destruct (lruPos_remove_ne k k' c p Hne Hpos) as (p' & -> & Hle).
    exists (S p'). split; [done|lia].
  - destruct (lruFind_tail k k' v' c Hne) as [Hf Hq]. rewrite Hfind in Hf.
    rewrite Hpos in Hq. change (S <$> Some p) with (Some (S p)) in Hq.
    case_decide as Hlen.
    + destruct (lruFind_removelast k ((k', v') :: c) (S p) Hq) as [-> ->]; [lia|].
      split; [done|]. exists (S p). split; [done|lia].
    + split; [done|]. exists (S p). split; [done|lia].
Qed.

Lemma lruGet_find (k k' : EventHash) (c : Cache) :
  lruFind k' (lruGet k c).2 = lruFind k' c.
Proof.
  unfold lruGet. destruct (lruFind k c) as [v|] eqn:Hfind; [|done]. simpl.
  case_decide as Hk; [by subst|]. by apply lruFind_remove_ne.
Qed.

(** A look-up ages an entry by at most one place and evicts nothing. *)
Lemma lruGet_keeps (k h : EventHash) (v : EventHeaderData) (c : Cache) (p : nat) :
  lruFind k c = Some v → lruPos k c = Some p →
  lruFind k (lruGet h c).2 = Some v ∧
  ∃ p', lruPos k (lruGet h c).2 = Some p' ∧ p' ≤ S p.
Proof.
  intros Hfind Hpos. unfold lruGet. destruct (lruFind h c) as [v0|] eqn:Hh; cbn [snd].
  - destruct (decide (h = k)) as [->|Hne].
    + assert (v0 = v) as -> by congruence.
      destruct (lruFind_head k v (lruRemove k c)) as [-> ->].
      split; [done|]. exists 0. split; [done|lia].
    + destruct (lruFind_tail k h v0 (lruRemove h c) Hne) as [-> ->].
      rewrite lruFind_remove_ne by done. split; [done|].
      destruct (lruPos_remove_ne k h c p Hne Hpos) as (p' & -> & Hle).
      exists (S p'). split; [done|lia].
  - split; [done|]. exists p. split; [done|lia].
Qed.

Lemma Session_inv (d : Driver) (w w' : World) (u : unit) :
  Session d w = Ret (u, w') → w' = w ∧ sessionFails d = false.
Proof. unfold Session. destruct (sessionFails d); [done|]. by intros [= _ <-]. Qed.

Lemma storeEvent_cache (f : TxFault) (e : EventHeaderData) (w w' : World) (u : unit) :
  storeEvent f e w = Ret (u, w') →
  EventsHeaders w' = EventsHeaders w ∧ f ≠ RunFails.
Proof.
  destruct f.
  - rewrite storeEvent_ok. destruct (createEvent (store w) (marshal e));
      by intros [= _ <-].
  - done.
  - by intros [= _ <-].
Qed.

Lemma snoc_split {A} (l l1 l2 : list A) (x y : A) :
  l ++ [x] = l1 ++ y :: l2 →
  (l2 = [] ∧ x = y ∧ l = l1) ∨ ∃ l2', l2 = l2' ++ [x] ∧ l = l1 ++ y :: l2'.
Proof.
  destruct l2 as [|z l2 _] using rev_ind.
  - intros [-> ->]%(app_inj_tail l l1). by left.
  - rewrite app_comm_cons, app_assoc. intros [-> ->]%app_inj_tail. right. by exists l2.
Qed.

Lemma InvLru_init (w : World) (sync : bool) : InvLru (newStore w sync).
Proof.
  split.
  - intros l1 i e l2 Heq. by destruct l1.
  - intros l i e Heq. by destruct l.
Qed.

Lemma InvLru_read (s : Sys) (o : Obs) :
  InvLru s → quiet o → InvLru (afterRead s (lookedUp o (EventsHeaders (db s))) o).
Proof.
  intros [Hbound Hlast] Hquiet.
  destruct o; try done; split; simpl;
    rewrite ?cacheOps_app, ?cached_app; cbn [cacheOps cached omap list_omap];
    rewrite ?app_nil_r; try done.
  - intros l1 i e l2 Heq Hfree Hlen.
    apply snoc_split in Heq as [(_ & Hno & _) | (l2' & -> & Heq)]; [done|].
    rewrite length_app in Hlen |- *. simpl in Hlen |- *.
    destruct (Hbound l1 i e l2' Heq) as (Hfind & p & Hpos & Hle).
    + intros j e' Hin. apply (Hfree j). apply elem_of_app. by left.
    + lia.
    + destruct (lruGet_keeps (Hash e) h e _ p Hfind Hpos) as (-> & p' & -> & Hle').
      split; [done|]. exists p'. split; [done|lia].
  - intros l i e Heq. rewrite lruGet_find. by eapply Hlast.
Qed.

Lemma InvLru_step (a : action) (s s' : Sys) :
  InvLru s → step a s = Next s' → InvLru s'.
Proof.
  intros Hinv Hstep.
  destruct a; try (read_case Hstep InvLru_read).
  all: destruct s as [sync q cl cs ws pc tot lst w tr];
    step_cases Hstep; unfold InvLru in *; simpl in *.
  all: rewrite ?cached_app, ?cacheOps_app; cbn [cached cacheOps omap list_omap];
    rewrite ?app_nil_r.
  all: try done.
  all: try match goal with H : Session _ _ = Ret _ |- _ =>
         apply Session_inv in H as [-> _]; done end.
  all: try match goal with H : storeEvent _ _ _ = Ret _ |- _ =>
         apply storeEvent_cache in H as [-> _]; done end.
  all: try match goal with H : logLine _ _ = Ret _ |- _ =>
         unfold logLine in H; simplify_eq/=; done end.
  all: try match goal with H : ret _ _ = Ret _ |- _ =>
         unfold ret in H; simplify_eq/=; done end.
  match goal with H : cacheAdd _ _ _ = Ret _ |- _ =>
    unfold cacheAdd in H; simplify_eq/= end.
  destruct Hinv as [Hbound Hlast]. split.
  - intros l1 j e l2 Heq Hfree Hlen.
    apply snoc_split in Heq as [(-> & [= <- <-] & <-) | (l2' & -> & Heq)].
    + destruct (lruAdd_same (Hash (Payload t)) (Payload t) (EventsHeaders w)) as [-> ->].
      split; [done|]. exists 0. split; [done|simpl; lia].
    + rewrite length_app in Hlen. simpl in Hlen.
      destruct (Hbound l1 j e l2' Heq) as (Hfind & p & Hpos & Hle).
      * intros j' e' Hj'. apply (Hfree j'). apply elem_of_app. by left.
      * lia.
      * destruct (decide (Hash (Payload t) = Hash e)) as [Hsame|Hdiff].
        -- assert (Payload t = e) as ->.
           { apply (Hfree i); [|done]. apply elem_of_app. right. by left. }
           destruct (lruAdd_same (Hash e) e (EventsHeaders w)) as [-> ->].
           split; [done|]. exists 0. split; [done|lia].
        -- destruct (lruAdd_keeps (Hash e) (Hash (Payload t)) e (Payload t)
                       (EventsHeaders w) p Hfind Hpos Hdiff) as (-> & p' & -> & Hle');
             [lia|]. split; [done|]. exists p'. split; [done|].
           rewrite length_app. simpl. lia.
  - intros l j e Heq. apply app_inj_tail in Heq as [_ [= <- <-]]. apply lruAdd_same.
Qed.

(** ** Every reachable state *)

Lemma Inv_init (w : World) (sync : bool) : Inv (newStore w sync).
Proof.
  split; [apply InvQueue_init|apply InvTask_init|apply InvOrder_init|apply InvLru_init].
Qed.

Lemma Inv_step (a : action) (s s' : Sys) : Inv s → step a s = Next s' → Inv s'.
Proof.
  intros [Hq Ht Ho Hl] Hstep. split.
  - by eapply InvQueue_step.
  - by eapply InvTask_step.
  - by eapply InvOrder_step.
  - by eapply InvLru_step.
Qed.

Lemma Inv_exec (sched : list action) (s s' : Sys) :
  Inv s → exec sched s = Next s' → Inv s'.
Proof.
  revert s. induction sched as [|a sched IH]; intros s Hinv; simpl.
  - by intros [= <-].
  - destruct (step a s) as [s1| |] eqn:Hstep; [|done..].
    apply IH. by eapply Inv_step.
Qed.

Lemma Inv_reachable (w : World) (sync : bool) (s : Sys) : reachable w sync s → Inv s.
Proof. intros [sched Hexec]. eapply Inv_exec; [apply Inv_init|done]. Qed.

Lemma step_synced (a : action) (s s' : Sys) : step a s = Next s' → synced s' = synced s.
Proof.
  intros Hstep.
  destruct a; try (by destruct (step_read _ _ _ Hstep I) as (o & -> & _)).
  all: destruct s as [sync q cl cs ws pc tot lst w tr]; step_cases Hstep; done.
Qed.

Lemma exec_synced (sched : list action) (s s' : Sys) :
  exec sched s = Next s' → synced s' = synced s.
Proof.
  revert s. induction sched as [|a sched IH]; intros s; simpl.
  - by intros [= <-].
  - destruct (step a s) as [s1| |] eqn:Hstep; [|done..].
    intros Hexec. rewrite (IH _ Hexec). by eapply step_synced.
Qed.

Lemma reachable_synced (w : World) (sync : bool) (s : Sys) :
  reachable w sync s → synced s = sync.
Proof. intros [sched Hexec]. by apply exec_synced in Hexec. Qed.

Lemma reachable_step (w : World) (sync : bool) (a : action) (s s' : Sys) :
  reachable w sync s → step a s = Next s' → reachable w sync s'.
Proof.
  intros [sched Hexec] Hstep. exists (sched ++ [a]).
  revert Hexec. generalize (newStore w sync). induction sched as [|b sched IH]; intros s0; simpl.
  - intros [= ->]. by rewrite Hstep.
  - destruct (step b s0); [apply IH|done..].
Qed.

(** ** The store under the pipeline *)

Lemma createParents_frame (g : Graph) (id : EventHash) (ps : list EventHash) :
  Events (foldl (λ g' p, createParent g' id p) g ps) = Events g ∧
  Epochs (foldl (λ g' p, createParent g' id p) g ps) = Epochs g ∧
  ∃ added, PARENT (foldl (λ g' p, createParent g' id p) g ps) = PARENT g ++ added ∧
           ∀ a b, (a, b) ∈ added → a = id ∧ b ∈ ps ∧ isEvent g id = true ∧ isEvent g b = true.
Proof.
  revert g. induction ps as [|p ps IH]; intros g; simpl.
  - split; [done|]. split; [done|]. exists []. split; [by rewrite app_nil_r|].
    intros a b Hin. by apply elem_of_nil in Hin.
  - destruct (IH (createParent g id p)) as (HE & Hep & added & HP & Hadd).
    unfold createParent in *. destruct (isEvent g id && isEvent g p) eqn:Hboth.
    + simpl in *. split; [done|]. split; [done|]. exists ((id, p) :: added).
      split; [by rewrite HP, <- app_assoc|].
      apply andb_true_iff in Hboth as [Hid Hp].
      intros a b [[= -> ->] | Hin]%elem_of_cons.
      * split; [done|]. split; [by left|done].
      * destruct (Hadd a b Hin) as (-> & ? & ? & ?). split; [done|]. split; [by right|done].
    + split; [done|]. split; [done|]. exists added. split; [done|].
      intros a b Hin. destruct (Hadd a b Hin) as (-> & ? & ? & ?).
      split; [done|]. split; [by right|done].
Qed.

(** The store after one run of the write transaction, whatever the driver
    does to it: nothing is lost, and it stays well formed. *)
Lemma storeEvent_grows (f : TxFault) (e : EventHeaderData) (w w' : World) (u : unit) :
  storeEvent f e w = Ret (u, w') →
  grows (store w) (store w') ∧ Epochs (store w') = Epochs (store w) ∧
  (wfGraph (store w) → wfGraph (store w')).
Proof.
  assert (grows (store w) (store w)) as Hrefl.
  { split; [done|]. exists []. by rewrite app_nil_r. }
  destruct f; [|done|by intros [= _ <-]].
  rewrite storeEvent_ok. unfold createEvent.
  destruct (Events (store w) !! f_id (marshal e)) as [ff|] eqn:Hnode;
    intros [= _ <-]; simpl; [done|].
  set (g1 := mkGraph _ _ _).
  destruct (createParents_frame g1 (Hash e) (Parents e)) as (HE & Hep & added & HP & Hadd).
  assert (∀ x, isEvent (store w) x = true → isEvent g1 x = true) as Hkeep.
  { intros x. apply (isEvent_insert _ (marshal e)). }
  split; [|split; [done|]].
  - split.
    + intros k ff Hk. rewrite HE. simpl.
      rewrite lookup_insert_ne; [done|]. intros <-. simpl in Hnode. congruence.
    + exists added. by rewrite HP.
  - intros [Hedges Hids]. split.
    + intros a b Hin. rewrite HP in Hin. simpl in Hin.
      unfold isEvent. rewrite !HE. fold (isEvent g1 a). fold (isEvent g1 b).
      apply elem_of_app in Hin as [Hin|Hin].
      * destruct (Hedges a b Hin). split; by apply Hkeep.
      * destruct (Hadd a b Hin) as (-> & _ & ? & ?). done.
    + intros k ff. rewrite HE. simpl.
      destruct (decide (Hash e = k)) as [<-|Hne].
      * rewrite lookup_insert_eq. by intros [= <-].
      * rewrite lookup_insert_ne by done. apply Hids.
Qed.

Lemma storeEvent_node (e : EventHeaderData) (w w1 : World) (u : unit) :
  storeEvent TxOk e w = Ret (u, w1) → isEvent (store w1) (Hash e) = true.
Proof.
  rewrite storeEvent_ok. unfold createEvent. simpl.
  destruct (Events (store w) !! Hash e) as [ff|] eqn:Hff; intros [= _ <-]; simpl.
  - unfold isEvent. rewrite Hff. by apply bool_decide_eq_true.
  - set (g1 := mkGraph _ _ _).
    destruct (createParents_frame g1 (Hash e) (Parents e)) as (HE & _).
    unfold isEvent. rewrite HE. simpl. rewrite lookup_insert_eq.
    by apply bool_decide_eq_true.
Qed.

Lemma grows_isEvent (g g' : Graph) (x : EventHash) :
  grows g g' → isEvent g x = true → isEvent g' x = true.
Proof.
  intros [Hnodes _]. unfold isEvent. rewrite !bool_decide_eq_true.
  intros [ff Hff]. exists ff. by apply Hnodes.
Qed.

Lemma grows_ancestors (g g' : Graph) (h y : EventHash) :
  grows g g' → y ∈ matchAncestors g h → y ∈ matchAncestors g' h.
Proof.
  intros Hgrow (Hh & Hy & Hreach)%elem_of_matchAncestors.
  apply elem_of_matchAncestors.
  split; [by eapply grows_isEvent|]. split; [by eapply grows_isEvent|].
  destruct Hgrow as [_ [added Hadd]].
  eapply tc_mono_edges; [|done]. intros a b Hab. unfold parentOf in *.
  rewrite Hadd. apply elem_of_app. by left.
Qed.

Lemma grows_trans (g1 g2 g3 : Graph) : grows g1 g2 → grows g2 g3 → grows g1 g3.
Proof.
  intros [Hn1 [a1 He1]] [Hn2 [a2 He2]]. split; [by eauto|].
  exists (a1 ++ a2). by rewrite He2, He1, app_assoc.
Qed.

Lemma grows_refl (g : Graph) : grows g g.
Proof. split; [done|]. exists []. by rewrite app_nil_r. Qed.

Lemma lruRemove_length (k : EventHash) (c : Cache) :
  length (lruRemove k c) ≤ length c ∧
  (is_Some (lruFind k c) → length (lruRemove k c) < length c).
Proof.
  induction c as [|[k0 v0] c [IHle IHlt]]; simpl.
  - split; [done|]. by intros [? ?].
  - case_decide; simpl; split; try lia. intros Hsome. specialize (IHlt Hsome). lia.
Qed.

Lemma removelast_length {A} (l : list A) : length (removelast l) = pred (length l).
Proof. rewrite removelast_firstn_len, length_take. lia. Qed.

Lemma lruAdd_length (k : EventHash) (v : EventHeaderData) (c : Cache) :
  length c ≤ lruSize → length (lruAdd k v c) ≤ lruSize.
Proof.
  intros Hlen. unfold lruAdd. destruct (lruFind k c) as [v0|] eqn:Hfind.
  - destruct (lruRemove_length k c) as [_ Hlt]. simpl.
    specialize (Hlt (ex_intro _ v0 Hfind)). lia.
  - case_decide as Hover; [|simpl in *; lia].
    rewrite removelast_length. simpl in *. lia.
Qed.

Lemma lruGet_length (k : EventHash) (c : Cache) :
  length (lruGet k c).2 ≤ length c.
Proof.
  unfold lruGet. destruct (lruFind k c) as [v|] eqn:Hfind; simpl; [|done].
  destruct (lruRemove_length k c) as [_ Hlt]. specialize (Hlt (ex_intro _ v Hfind)). lia.
Qed.

(** What a step of the pipeline does to the database handle: the store only
    grows and stays well formed, epochs are not touched, and the cache stays
    within its size. *)
Lemma step_db (a : action) (s s' : Sys) :
  step a s = Next s' →
  grows (store (db s)) (store (db s')) ∧
  Epochs (store (db s')) = Epochs (store (db s)) ∧
  (wfGraph (store (db s)) → wfGraph (store (db s'))) ∧
  (cacheBounded (db s) → cacheBounded (db s')).
Proof.
  intros Hstep.
  destruct a;
    try (destruct (step_read _ _ _ Hstep I) as (o & -> & Hquiet);
         split; [apply grows_refl|split; [done|split; [done|]]];
         unfold cacheBounded; cbn [afterRead db EventsHeaders];
         destruct o; try done; cbn [lookedUp];
         intros Hc; etrans; [apply lruGet_length|done]).
  all: destruct s as [sync q cl cs ws pc tot lst w tr]; step_cases Hstep.
  all: try (split; [apply grows_refl|done]).
  - match goal with H : Session _ _ = Ret _ |- _ => apply Session_inv in H as [-> _] end.
    split; [apply grows_refl|done].
  - match goal with H : logLine _ _ = Ret _ |- _ => unfold logLine in H; simplify_eq/= end.
    split; [apply grows_refl|done].
  - match goal with H : storeEvent _ _ _ = Ret _ |- _ =>
      pose proof (storeEvent_cache _ _ _ _ _ H) as [Hc _];
      apply storeEvent_grows in H as (? & ? & ?) end.
    split; [done|]. split; [done|]. split; [done|]. unfold cacheBounded. by rewrite Hc.
  - match goal with H : cacheAdd _ _ _ = Ret _ |- _ => unfold cacheAdd in H; simplify_eq/= end.
    split; [apply grows_refl|]. split; [done|]. split; [done|].
    unfold cacheBounded. simpl. apply lruAdd_length.
  - match goal with H : logLine _ _ = Ret _ |- _ => unfold logLine in H; simplify_eq/= end.
    split; [apply grows_refl|done].
  - match goal with H : ret _ _ = Ret _ |- _ => unfold ret in H; simplify_eq/= end.
    split; [apply grows_refl|done].
Qed.

Lemma exec_db (sched : list action) (s s' : Sys) :
  exec sched s = Next s' →
  grows (store (db s)) (store (db s')) ∧
  Epochs (store (db s')) = Epochs (store (db s)) ∧
  (wfGraph (store (db s)) → wfGraph (store (db s'))) ∧
  (cacheBounded (db s) → cacheBounded (db s')).
Proof.
  revert s. induction sched as [|a sched IH]; intros s0; simpl.
  - intros [= <-]. split; [apply grows_refl|done].
  - destruct (step a s0) as [s1| |] eqn:Hstep; [|done..]. intros Hexec.
    destruct (step_db a s0 s1 Hstep) as (Hg1 & He1 & Hw1 & Hc1).
    destruct (IH s1 Hexec) as (Hg & He & Hw & Hc).
    split; [by eapply grows_trans|]. split; [congruence|]. split; by eauto.
Qed.

Lemma reachable_db (w : World) (sync : bool) (s : Sys) :
  reachable w sync s →
  grows (store w) (store (db s)) ∧
  Epochs (store (db s)) = Epochs (store w) ∧
  (wfGraph (store w) → wfGraph (store (db s))) ∧
  (cacheBounded w → cacheBounded (db s)).
Proof. intros [sched Hexec]. apply (exec_db sched (newStore w sync) s Hexec). Qed.



Lemma commits_sent (s : Sys) (i : nat) :
  InvQueue s → i ∈ commits (trace s) → i < length (calls s).
Proof.
  intros Hq Hi. apply (dones_sent s i Hq). rewrite (inv_commit s Hq).
  apply elem_of_app. by left.
Qed.

(** A write transaction the driver lets through leaves the node of its
    event, and nothing removes a node. *)
Lemma InvNodes_step (base : list nat) (a : action) (s s' : Sys) :
  Inv s → letsThrough a → InvNodes base s → step a s = Next s' → InvNodes base s'.
Proof.
  intros Hinv Hlet Hnodes Hstep.
  pose proof (step_db a s s' Hstep) as (Hgrow & _).
  assert (∀ i e, i ∈ commits (trace s') → OCall i e ∈ trace s' →
            (i ∈ commits (trace s) ∧ OCall i e ∈ trace s) ∨
            isEvent (store (db s')) (Hash e) = true) as Hcase.
  { clear Hnodes Hgrow. destruct Hinv as [Hq Ht _ _].
    pose proof (commits_sent s) as Hcs. specialize (λ i, Hcs i Hq).
    destruct a;
      try (destruct (step_read _ _ _ Hstep I) as (o & -> & Hquiet);
           destruct o; try done; simpl; intros i0 e0 Hc Hcall;
           rewrite commits_app in Hc; cbn in Hc; rewrite app_nil_r in Hc;
           app_old Hcall; by left).
    all: destruct s as [sync q cl cs ws pc tot lst w tr]; step_cases Hstep.
    all: destruct Ht as [Hlen Hcall Huniq Hflight Hsend Hwg Hcc]; simpl in *.
    all: intros i0 e0 Hc Hc0; rewrite ?commits_app in Hc; cbn [commits omap list_omap] in Hc;
      rewrite ?app_nil_r in Hc.
    all: try (left; split; [done|]; first [done | by app_old Hc0]).
    - apply elem_of_app in Hc0 as [Hc0 | [= -> ->]%list_elem_of_singleton]; [by left|].
      apply Hcs in Hc. lia.
    - apply elem_of_app in Hc0 as [Hc0 | [= -> ->]%list_elem_of_singleton]; [by left|].
      apply Hcs in Hc. lia.
    - app_old Hc0.
      apply elem_of_app in Hc as [Hc | ->%list_elem_of_singleton]; [by left|]. right.
      destruct (Hflight i t) as [_ Hti]; [apply elem_of_app; right; by left|].
      rewrite (Huniq i e0 (event t) Hc0 Hti).
      match goal with H : storeEvent _ _ _ = Ret _ |- _ =>
        rewrite Hlet in H; by apply storeEvent_node in H end. }
  intros i e Hc Hb Hcall. destruct (Hcase i e Hc Hcall) as [[Hc0 Hcall0]|?]; [|done].
  eapply grows_isEvent; [done|]. by apply (Hnodes i e).
Qed.

Lemma InvNodes_exec (base : list nat) (sched : list action) (s s' : Sys) :
  Inv s → Forall letsThrough sched → InvNodes base s → exec sched s = Next s' →
  InvNodes base s'.
Proof.
  revert s. induction sched as [|a sched IH]; intros s Hinv Hlet Hnodes; simpl.
  - by intros [= <-].
  - apply Forall_cons in Hlet as [Ha Hlet].
    destruct (step a s) as [s1| |] eqn:Hstep; [|done..].
    apply IH; [by eapply Inv_step|done|by eapply InvNodes_step].
Qed.

Lemma InvNodes_init (w : World) (sync : bool) : InvNodes [] (newStore w sync).
Proof. intros i e Hi. by apply elem_of_nil in Hi. Qed.


(** ** Synchronous and asynchronous [Save] *)

(** C1, as stated, fails on its consequence: [Save(e)] has returned in
    synchronous mode, 500 other events are saved, and [GetEvent] rebuilds the
    header from the store: without the parent whose node never existed, or
    not at all when the commit of [e] had failed. *)
Lemma sync_Save_then_evicted :
  (OReturn 0 ∈ trace (afterEviction healthy orphan) ∧
   ∃ w', GetEvent healthy (Hash orphan) (db (afterEviction healthy orphan)) =
           Ret (Some (mkHeader 1 7 [] 0), w')) ∧
  (OReturn 0 ∈ trace (afterEviction txFailing genesis) ∧
   ∃ w', GetEvent healthy (Hash genesis) (db (afterEviction txFailing genesis)) =
           Ret (None, w')).
Proof.
  split; (split; [apply (bool_decide_unpack _); vm_compute; exact I|]).
  - eexists. vm_compute. reflexivity.
  - eexists. vm_compute. reflexivity.
Qed.

Lemma call_event_unique (s : Sys) (i : nat) (e e' : EventHeaderData) :
  Inv s → OCall i e ∈ trace s → OCall i e' ∈ trace s → e = e'.
Proof. intros [_ Ht _ _]. apply (inv_call_unique s Ht). Qed.

(** The whole life of a task, once its completion signal has fired. *)
Lemma done_history (s : Sys) (i : nat) (e : EventHeaderData) :
  Inv s → OCall i e ∈ trace s → ODone i ∈ trace s →
  before (OCall i e) (OEnqueue i) (trace s) ∧
  before (OEnqueue i) (ODequeue i) (trace s) ∧
  before (ODequeue i) (OCommit i) (trace s) ∧
  before (OCommit i) (OCacheAdd i e) (trace s) ∧
  before (OCacheAdd i e) (ODone i) (trace s).
Proof.
  intros Hinv Hcall Hdone. pose proof Hinv as [Hq Ht Ho Hl].
  destruct (ord_done s Ho i Hdone) as [e' Hcd].
  pose proof (before_elem_of _ _ _ Hcd) as [Hc _].
  assert (e' = e) as ->.
  { eapply call_event_unique; [done| |done].
    by apply (inv_cached_call s Ht), elem_of_cached. }
  pose proof (ord_cache s Ho i e Hc) as Hmc.
  pose proof (before_elem_of _ _ _ Hmc) as [Hm _].
  pose proof (ord_commit s Ho i Hm) as Hdm.
  pose proof (before_elem_of _ _ _ Hdm) as [Hd _].
  pose proof (ord_deq s Ho i Hd) as Hed.
  pose proof (before_elem_of _ _ _ Hed) as [He _].
  destruct (ord_enq s Ho i He) as [e'' Hce].
  pose proof (before_elem_of _ _ _ Hce) as [Hc'' _].
  assert (e'' = e) as -> by (by eapply call_event_unique).
  done.
Qed.

(** The count that matters for eviction is that of all operations on the
    cache, look-ups included: [Save(orphan)] has returned, 499 look-ups hit
    the entries that were there before and one event is saved; [orphan] is
    evicted although a single insert followed its own. *)
Lemma lookups_count_towards_eviction :
  OReturn (lruSize - 1) ∈ trace afterAging ∧
  (∃ l, cached (trace afterAging) =
          l ++ [(lruSize - 1, orphan); (lruSize, mkHeader 99 7 [] 0)]) ∧
  lruFind (Hash orphan) (EventsHeaders (db afterAging)) = None ∧
  ∃ w', GetEvent healthy (Hash orphan) (db afterAging) =
          Ret (Some (mkHeader 1 7 [] 0), w').
Proof.
  split; [apply (bool_decide_unpack _); vm_compute; exact I|].
  split; [eexists (take (lruSize - 1) (cached (trace afterAging))); vm_compute; reflexivity|].
  split; [vm_compute; reflexivity|].
  eexists. vm_compute. reflexivity.
Qed.

(** C1, amended.  In synchronous mode a [Save(e)] that has returned was
    enqueued, dequeued, run through its write transaction, inserted into the
    cache and signalled, in this order, before it returned.  As long as fewer
    than 500 operations on the cache followed its insert, inserts of [Load]
    and look-ups of [HasEvent] and [GetEvent] alike, none of them putting
    another header under the same hash, [GetEvent] answers [e] from the
    cache.  In asynchronous mode the call can return as soon as its task is
    in the channel. *)
Theorem Save_returns_after_completion (w : World) (sync : bool) (s : Sys) (i : nat)
    (e : EventHeaderData) :
  reachable w sync s →
  OCall i e ∈ trace s →
  (sync = false → calls s !! i = Some SaveWait →
     ∃ s', step (AReturn i) s = Next s' ∧ calls s' !! i = Some SaveReturned)
  ∧ (sync = true → OReturn i ∈ trace s →
     (before (OCall i e) (OEnqueue i) (trace s) ∧
      before (OEnqueue i) (ODequeue i) (trace s) ∧
      before (ODequeue i) (OCommit i) (trace s) ∧
      before (OCommit i) (OCacheAdd i e) (trace s) ∧
      before (OCacheAdd i e) (ODone i) (trace s) ∧
      before (ODone i) (OReturn i) (trace s)) ∧
     ∀ l1 l2 d,
       cacheOps (trace s) = l1 ++ CAdd i e :: l2 →
       (∀ j e', CAdd j e' ∈ l2 → Hash e' = Hash e → e' = e) →
       length l2 < lruSize →
       returns (GetEvent d (Hash e) (db s)) (Some e)).
Proof.
  intros Hreach Hcall. pose proof (Inv_reachable _ _ _ Hreach) as Hinv.
  pose proof (reachable_synced _ _ _ Hreach) as Hsync. split.
  - intros -> Hpc. simpl. rewrite Hpc, Hsync. simpl. eexists. split; [done|]. simpl.
    apply list_lookup_insert_eq. by eapply lookup_lt_Some.
  - intros -> Hret. pose proof Hinv as [Hq Ht Ho Hl].
    pose proof (ord_return s Ho i Hsync Hret) as Hdr.
    pose proof (before_elem_of _ _ _ Hdr) as [Hdone _].
    destruct (done_history s i e Hinv Hcall Hdone) as (? & ? & ? & ? & ?).
    split; [done|]. intros l1 l2 d Heq Hfree Hlen.
    destruct (proj1 Hl l1 i e l2 Heq Hfree Hlen) as [Hfind _].
    by eapply GetEvent_cached.
Qed.

Lemma reachable_exec (w : World) (sync : bool) (sched : list action) :
  (if exec sched (newStore w sync) is Next _ then True else False) →
  reachable w sync (stateOf (exec sched (newStore w sync)) (newStore w sync)).
Proof. intros Hrun. exists sched. by destruct (exec sched (newStore w sync)). Qed.

Lemma Save_returns_after_completion_witness :
  before (ODone 0) (OReturn 0) (trace savedOne) ∧
  returns (GetEvent healthy 1 (db savedOne)) (Some genesis).
Proof.
  assert (reachable seeded true savedOne) as Hreach
    by (apply reachable_exec; vm_compute; exact I).
  assert (OCall 0 genesis ∈ trace savedOne) as Hcall
    by (apply (bool_decide_unpack _); vm_compute; exact I).
  assert (OReturn 0 ∈ trace savedOne) as Hret
    by (apply (bool_decide_unpack _); vm_compute; exact I).
  destruct (Save_returns_after_completion seeded true savedOne 0 genesis Hreach Hcall)
    as [_ Hsync].
  destruct (Hsync eq_refl Hret) as [(_ & _ & _ & _ & _ & Hlast) Hget].
  split; [exact Hlast|].
  apply (Hget [] [] healthy).
  - vm_compute. reflexivity.
  - intros j e' Hin. by apply elem_of_nil in Hin.
  - unfold lruSize. simpl. lia.
Defined.

(** ** Visibility of a saved event *)


Lemma fmap_fst_snoc {A B} (l : list (A * B)) (k : list A) (x : A) :
  l.*1 = k ++ [x] → ∃ l' y, l = l' ++ [(x, y)] ∧ l'.*1 = k.
Proof.
  destruct l as [|[a b] l _] using rev_ind.
  - intros Heq. by destruct k.
  - rewrite fmap_app. simpl. intros [Hk [= ->]]%app_inj_tail. by exists l, b.
Qed.

(** The state in which [Load] is about to signal a task. *)
Lemma at_LoadDone (s : Sys) (i : nat) (t : task) :
  Inv s → loader s = LoadDone i t →
  t = taskOf (synced s) i (event t) ∧
  OCall i (Payload t) ∈ trace s ∧
  (∃ l, cached (trace s) = l ++ [(i, Payload t)]) ∧
  (ODone i ∉ trace s) ∧
  lruFind (Hash (Payload t)) (EventsHeaders (db s)) = Some (Payload t).
Proof.
  intros [Hq Ht Ho Hl] Hpc.
  destruct (inv_flight s Ht i t) as [Htask Hcall].
  { rewrite Hpc. apply elem_of_app. right. by left. }
  pose proof (inv_deq s Hq) as Hdeq. pose proof (inv_cache s Hq) as Hcac.
  rewrite Hpc in Hdeq, Hcac. simpl in Hdeq, Hcac. rewrite app_nil_r in Hcac.
  rewrite Hcac in Hdeq. apply fmap_fst_snoc in Hdeq as (l & e' & Heq & Hl').
  assert (e' = event t) as ->.
  { eapply (inv_call_unique s Ht); [|done].
    apply (inv_cached_call s Ht). rewrite Heq. apply elem_of_app. right. by left. }
  split; [done|]. split; [done|]. split; [by exists l|]. split.
  - intros Hin%elem_of_dones. pose proof (NoDup_deqs s Hq) as Hnd.
    rewrite Hcac, Heq, fmap_app in Hnd. simpl in Hnd.
    apply NoDup_app in Hnd as (_ & Hdisj & _). rewrite <- Hl' in Hin.
    apply (Hdisj i Hin). by left.
  - by apply (proj2 Hl l i).
Qed.

(** Where the guarantee ends: the write transaction of [Save(genesis)]
    failed and was swallowed, 500 further events pushed the header out of
    the cache, and [HasEvent] answers false although the event was inserted
    into the cache and its [Save] has returned. *)
Lemma HasEvent_false_after_eviction :
  OCacheAdd 0 genesis ∈ trace (afterEviction txFailing genesis) ∧
  OReturn 0 ∈ trace (afterEviction txFailing genesis) ∧
  ∃ w', HasEvent healthy (Hash genesis) (db (afterEviction txFailing genesis)) =
          Ret (false, w').
Proof.
  split; [apply (bool_decide_unpack _); vm_compute; exact I|].
  split; [apply (bool_decide_unpack _); vm_compute; exact I|].
  eexists. vm_compute. reflexivity.
Qed.




(** ** The completion signal *)

Lemma storeEvent_total (f : TxFault) (e : EventHeaderData) (w : World) :
  f ≠ RunFails → ∃ w', storeEvent f e w = Ret (tt, w').
Proof.
  destruct f; [|done|by eexists].
  intros _. rewrite storeEvent_ok. destruct (createEvent (store w) (marshal e)); by eexists.
Qed.

(** In a reachable state [task.Done()] finds the wait group of its call at
    1 (synchronous mode) and brings it to 0, or has nothing to call. *)
Lemma Done_reachable (s : Sys) (i : nat) (t : task) :
  Inv s → loader s = LoadDone i t →
  (synced s = true → wgs s !! i = Some 1%Z) ∧
  Done t (wgs s) = Ret (if synced s then <[i := 0%Z]> (wgs s) else wgs s).
Proof.
  intros Hinv Hpc. destruct (at_LoadDone s i t Hinv Hpc) as (Htask & Hcall & _ & Hnot & _).
  destruct Hinv as [Hq Ht Ho Hl].
  assert (wgs s !! i = Some (if synced s then 1 else 0)%Z) as Hwg.
  { rewrite (inv_wg s Ht i) by (by eapply (inv_call s Ht)).
    rewrite bool_decide_true; [by destruct (synced s)|].
    by intros Hin%elem_of_dones. }
  split; [by intros Hs; rewrite Hs in Hwg|].
  unfold Done. rewrite Htask. simpl. destruct (synced s); [|done].
  unfold wgDone, wgAdd. rewrite Hwg. by rewrite decide_False by lia.
Qed.

(** C10.  [Done] on a task without callback changes nothing and cannot
    panic; with a callback it is one call of it.  In the pipeline the call
    is safe in either mode, an asynchronous task carrying no callback and a
    synchronous one the [Done] of a wait group standing at 1, which it
    brings to 0; and the tasks signalled so far are, without repetition, the
    tasks dequeued, the one in hand apart. *)
Theorem Done_safe_in_both_modes (w : World) (sync : bool) (s : Sys) :
  reachable w sync s →
  (∀ (t : task) (h : list Z), onDone t = None → Done t h = Ret h)
  ∧ (∀ (t : task) (f : list Z → result (list Z)) (h : list Z),
       onDone t = Some f → Done t h = f h)
  ∧ (∀ (i : nat) (t : task) (d : Driver) (elapsed : bool),
       loader s = LoadDone i t →
       onDone t = (if sync then Some (wgDone i) else None) ∧
       (sync = true → wgs s !! i = Some 1%Z) ∧
       ∃ s', step (ALoad d elapsed) s = Next s' ∧
             loader s' = LoadStats i t ∧
             wgs s' = (if sync then <[i := 0%Z]> (wgs s) else wgs s) ∧
             dones (trace s') = dones (trace s) ++ [i])
  ∧ NoDup (dones (trace s))
  ∧ deqs (trace s) = dones (trace s) ++ undone (loader s).
Proof.
  intros Hreach. pose proof (Inv_reachable _ _ _ Hreach) as Hinv.
  pose proof (reachable_synced _ _ _ Hreach) as Hsync.
  split; [by intros t h Hnil; unfold Done; rewrite Hnil|].
  split; [by intros t f h Hf; unfold Done; rewrite Hf|].
  split; [|split].
  - intros i t d elapsed Hpc.
    destruct (Done_reachable s i t Hinv Hpc) as [Hone Hdone].
    destruct (at_LoadDone s i t Hinv Hpc) as (Htask & _).
    rewrite Hsync in Hone, Hdone, Htask.
    split; [by rewrite Htask|]. split; [done|].
    simpl. unfold stepLoad. rewrite Hpc, Hdone. eexists. split; [done|]. simpl.
    split; [done|]. split; [done|]. by rewrite dones_app.
  - destruct Hinv as [Hq _ _ _]. pose proof (NoDup_deqs s Hq) as Hnd.
    rewrite (inv_deq s Hq) in Hnd. by apply NoDup_app in Hnd as [? _].
  - destruct Hinv as [Hq _ _ _]. apply (inv_deq s Hq).
Qed.

Lemma Done_safe_in_both_modes_witness :
  wgs beforeDone !! 0 = Some 1%Z ∧
  ∃ s', step (ALoad healthy false) beforeDone = Next s' ∧ wgs s' = <[0 := 0%Z]> (wgs beforeDone).
Proof.
  assert (reachable seeded true beforeDone) as Hreach
    by (apply reachable_exec; vm_compute; exact I).
  destruct (Done_safe_in_both_modes seeded true beforeDone Hreach)
    as (_ & _ & Hstep & _).
  destruct (Hstep 0 (taskOf true 0 genesis) healthy false) as (_ & Hone & s' & Hs' & _ & Hwg & _).
  - vm_compute. reflexivity.
  - split; [by apply Hone|]. exists s'. by split.
Defined.

(** ** The bounded channel *)

(** C6.  The channel never holds more than its 10 slots.  A call at its send
    statement is blocked while all slots are taken and proceeds, appending
    its task, as soon as one is free, which the next receive of [Load]
    brings about.  Every task that entered the channel has been signalled,
    is in the hands of [Load], or is still in the channel, in the order of
    entry and once. *)
Theorem queue_never_exceeds_capacity (w : World) (sync : bool) (s : Sys) :
  reachable w sync s →
  outCap = 10
  ∧ length (out s) ≤ outCap
  ∧ (∀ (i : nat) (t : task),
       calls s !! i = Some (SaveSend t) → closed s = false →
       (length (out s) = outCap → step (ASend i) s = Blocked) ∧
       (length (out s) < outCap →
        ∃ s', step (ASend i) s = Next s' ∧ out s' = out s ++ [(i, t)]))
  ∧ (∀ (d : Driver) (elapsed : bool),
       loader s = LoadRecv → out s ≠ [] →
       ∃ s', step (ALoad d elapsed) s = Next s' ∧ length (out s') < outCap ∧
             hand (loader s') ++ out s' = out s)
  ∧ enqs (trace s) = dones (trace s) ++ undone (loader s) ++ (out s).*1
  ∧ NoDup (enqs (trace s)).
Proof.
  intros Hreach. pose proof (Inv_reachable _ _ _ Hreach) as [Hq _ _ _].
  split; [done|]. split; [apply (inv_cap s Hq)|]. split; [|split; [|split]].
  - intros i t Hpc Hopen. simpl. rewrite Hpc, Hopen. split.
    + intros Hfull. rewrite decide_False by lia. done.
    + intros Hfree. rewrite decide_True by done. by eexists.
  - intros d elapsed Hpc Hne. simpl. unfold stepLoad. rewrite Hpc.
    pose proof (inv_cap s Hq) as Hcap.
    destruct (out s) as [|[i t] rest] eqn:Hout; [done|].
    eexists. split; [done|]. simpl in *. split; [lia|done].
  - rewrite (inv_fifo s Hq), (inv_deq s Hq). by rewrite <- app_assoc.
  - apply (inv_nodup s Hq).
Qed.

Lemma queue_never_exceeds_capacity_witness :
  ∃ s', step (ASend 0) enteredOnly = Next s' ∧
        out s' = out enteredOnly ++ [(0, taskOf true 0 genesis)].
Proof.
  assert (reachable seeded true enteredOnly) as Hreach
    by (apply reachable_exec; vm_compute; exact I).
  destruct (queue_never_exceeds_capacity _ _ _ Hreach) as (_ & _ & Hsend & _).
  destruct (Hsend 0 (taskOf true 0 genesis)) as [_ Hgo].
  - vm_compute. reflexivity.
  - reflexivity.
  - apply Hgo. vm_compute. lia.
Defined.

(** ** Shutdown *)



(** Once [Load] has returned, every task that entered the channel has gone
    through all of its statements, in the order of entry. *)
Lemma exit_all_done (s : Sys) :
  Inv s → loader s = LoadExit →
  out s = [] ∧
  dones (trace s) = enqs (trace s) ∧
  commits (trace s) = enqs (trace s) ∧
  (cached (trace s)).*1 = enqs (trace s) ∧
  summaries (trace s) = 1.
Proof.
  intros [Hq _ _ _] Hpc. destruct (inv_exit s Hq Hpc) as [_ Hout].
  pose proof (inv_fifo s Hq) as Hfifo. pose proof (inv_deq s Hq) as Hdeq.
  pose proof (inv_commit s Hq) as Hcom. pose proof (inv_cache s Hq) as Hcac.
  pose proof (inv_summary s Hq) as Hsum.
  rewrite Hpc in Hdeq, Hcom, Hcac, Hsum. rewrite Hout in Hfifo. simpl in *.
  rewrite app_nil_r in *. repeat split; congruence.
Qed.


Lemma drained_wgs (s : Sys) (i : nat) :
  Inv s → i ∈ enqs (trace s) → i ∈ dones (trace s) → wgs s !! i = Some 0%Z.
Proof.
  intros [Hq Ht _ _] Henq Hdone.
  assert (i < length (calls s)) as Hlt.
  { destruct (inv_sent s Hq i Henq); by eapply lookup_lt_Some. }
  rewrite (inv_wg s Ht i Hlt). rewrite bool_decide_false by (by intros Hn).
  by rewrite andb_false_r.
Qed.



(** * Further properties of the code *)

(** ** Queries *)


Lemma GetEvent_on_miss (w : World) (h : EventHash) :
  lruFind h (EventsHeaders w) = None →
  GetEvent healthy h w =
    match Events (store w) !! h with
    | Some ff =>
        Ret (Some (withParents (unmarshal ff) (matchParents (store w) h)),
             mkWorld (store w) (EventsHeaders w) (logs w)
                     ((sent w ++ [MatchEventFields h]) ++ [MatchParents h]))
    | None =>
        Ret (None,
             mkWorld (store w) (EventsHeaders w) (logs w) (sent w ++ [MatchEventFields h]))
    end.
Proof.
  intros Hmiss. unfold GetEvent, bind. rewrite (lruGet_miss _ _ Hmiss). simpl.
  unfold matchEvent. by destruct (Events (store w) !! h).
Qed.

(** [HasEvent] and [GetEvent] agree: on a database that answers, the one
    returns true exactly when the other returns a header. *)
Theorem HasEvent_iff_GetEvent (w : World) (h : EventHash) :
  ∃ b r w1 w2,
    HasEvent healthy h w = Ret (b, w1) ∧
    GetEvent healthy h w = Ret (r, w2) ∧
    (b = true ↔ is_Some r).
Proof.
  destruct (lruFind h (EventsHeaders w)) as [v|] eqn:Hfind.
  - destruct (HasEvent_cached healthy h v w Hfind) as [w1 ->].
    destruct (GetEvent_cached healthy h v w Hfind) as [w2 ->].
    exists true, (Some v), w1, w2. by repeat split.
  - rewrite HasEvent_store_backed, GetEvent_on_miss by done.
    unfold isEvent. destruct (Events (store w) !! h) as [ff|] eqn:Hh.
    + do 4 eexists. split; [done|]. split; [done|]. by split.
    + do 4 eexists. split; [done|]. split; [done|].
      split; [done|by intros [? ?]].
Qed.



Lemma cacheGet_inv (k : EventHash) (w w' : World) (r : option EventHeaderData) :
  cacheGet k w = Ret (r, w') →
  r = lruFind k (EventsHeaders w) ∧ store w' = store w ∧ logs w' = logs w ∧
  sent w' = sent w ∧ ∀ k', lruFind k' (EventsHeaders w') = lruFind k' (EventsHeaders w).
Proof.
  unfold cacheGet. intros Hget.
  assert (EventsHeaders w' = (lruGet k (EventsHeaders w)).2 ∧
          r = (lruGet k (EventsHeaders w)).1 ∧ store w' = store w ∧
          logs w' = logs w ∧ sent w' = sent w) as (Hc & -> & ? & ? & ?).
  { destruct (lruGet k (EventsHeaders w)) as [r0 c0]. by injection Hget as <- <-. }
  repeat split; try done.
  - unfold lruGet. by destruct (lruFind k (EventsHeaders w)).
  - intros k'. rewrite Hc. apply lruGet_find.
Qed.

(** The four queries never write: whatever the driver does, when they return
    the store is as it was and the cache holds the same header under every
    hash. *)
Theorem queries_never_write (d : Driver) (h : EventHash) (w w' : World) :
  (∃ b, HasEvent d h w = Ret (b, w')) ∨ (∃ r, GetEvent d h w = Ret (r, w')) ∨
  (∃ l, FindAncestors d h w = Ret (l, w')) ∨ (∃ n, GetEpoch d w = Ret (n, w')) →
  store w' = store w ∧
  ∀ k, lruFind k (EventsHeaders w') = lruFind k (EventsHeaders w).
Proof.
  intros [[b Hq] | [[r Hq] | [[l Hq] | [n Hq]]]].
  - unfold HasEvent, bind in Hq.
    destruct (cacheGet h w) as [[r0 w0]|] eqn:Hget; [|done].
    apply cacheGet_inv in Hget as (-> & Hs & _ & _ & Hc).
    rewrite <- Hs. setoid_rewrite <- Hc. clear Hs Hc.
    destruct (lruFind h (EventsHeaders w)); [by injection Hq as _ <-|].
    drive d Hq; done.
  - unfold GetEvent, bind in Hq.
    destruct (cacheGet h w) as [[r0 w0]|] eqn:Hget; [|done].
    apply cacheGet_inv in Hget as (-> & Hs & _ & _ & Hc).
    rewrite <- Hs. setoid_rewrite <- Hc. clear Hs Hc.
    destruct (lruFind h (EventsHeaders w)); [by injection Hq as _ <-|].
    drive d Hq; done.
  - unfold FindAncestors, bind in Hq. drive d Hq; done.
  - unfold GetEpoch, bind in Hq. drive d Hq; done.
Qed.

Lemma queries_never_write_witness :
  store (mkWorld (store oneEvent) [] [] [MatchEventFields 1; MatchParents 1]) = store oneEvent ∧
  ∀ k, lruFind k [] = lruFind k (EventsHeaders oneEvent).
Proof.
  apply (queries_never_write healthy 1 oneEvent
           (mkWorld (store oneEvent) [] [] [MatchEventFields 1; MatchParents 1])).
  right. left. eexists. vm_compute. reflexivity.
Defined.

(** ** The write transaction of [Load] *)



Lemma storeEvent_again (e : EventHeaderData) (w : World) :
  isEvent (store w) (Hash e) = true →
  storeEvent TxOk e w =
    Ret (tt, mkWorld (store w) (EventsHeaders w) (logs w ++ [LogTrace])
                     (sent w ++ storeQueries e)).
Proof.
  intros Hnode. rewrite storeEvent_ok. unfold createEvent, isEvent in *.
  apply bool_decide_eq_true in Hnode as [ff Hff]. simpl. by rewrite Hff.
Qed.


(** A commit that the driver lets through leaves the node of the event in
    the store, and committing the same event again changes nothing there:
    the uniqueness constraint rejects it and the rejection is logged. *)
Theorem storeEvent_twice (w : World) (e : EventHeaderData) :
  ∃ w1 w2,
    storeEvent TxOk e w = Ret (tt, w1) ∧
    isEvent (store w1) (Hash e) = true ∧
    storeEvent TxOk e w1 = Ret (tt, w2) ∧
    store w2 = store w1 ∧
    logs w2 = logs w1 ++ [LogTrace].
Proof.
  destruct (storeEvent_total TxOk e w) as [w1 Hfirst]; [done|].
  pose proof (storeEvent_node e w w1 tt Hfirst) as Hnode.
  exists w1. eexists. split; [done|]. split; [done|].
  split; [by apply storeEvent_again|]. done.
Qed.

(** ** Ancestors, further *)

Lemma tc_parentOf_trans (E : list (EventHash * EventHash)) (a b c : EventHash) :
  tc (parentOf E) a b → tc (parentOf E) b c → tc (parentOf E) a c.
Proof. intros Hab Hbc. by eapply tc_transitive. Qed.

(** The answers of [FindAncestors] are closed: an ancestor of an ancestor is
    an ancestor.  A hash without node has none, and on a well-formed store
    the parents [GetEvent] reads from the store are all among them. *)
Theorem FindAncestors_closed (w : World) (h : EventHash) :
  ∃ l w1, FindAncestors healthy h w = Ret (l, w1) ∧
    (∀ y ly wy z, y ∈ l → FindAncestors healthy y w = Ret (ly, wy) → z ∈ ly → z ∈ l) ∧
    (isEvent (store w) h = false → l = []) ∧
    (wfGraph (store w) → ∀ p, p ∈ matchParents (store w) h → p ∈ l).
Proof.
  do 2 eexists. split; [apply FindAncestors_healthy|]. split; [|split].
  - intros y ly wy z Hy Hq Hz. rewrite FindAncestors_healthy in Hq. injection Hq as <- _.
    apply elem_of_matchAncestors in Hy as (Hh & _ & Hhy).
    apply elem_of_matchAncestors in Hz as (_ & Hz & Hyz).
    apply elem_of_matchAncestors. split; [done|]. split; [done|].
    by eapply tc_parentOf_trans.
  - intros Hno. unfold matchAncestors. by rewrite Hno.
  - intros [Hedges _] p Hp. unfold matchParents in Hp.
    destruct (isEvent (store w) h) eqn:Hh; [|by apply elem_of_nil in Hp].
    apply list_elem_of_omap in Hp as ([a b] & Hin & Hf). simpl in Hf.
    case_decide as Ha; [|done]. injection Hf as ->. subst a.
    apply elem_of_matchAncestors. split; [done|].
    destruct (Hedges _ _ Hin) as [_ Hb]. split; [done|]. by apply tc_once.
Qed.

Lemma FindAncestors_closed_witness :
  ∃ l w1, FindAncestors healthy 5 oneEvent = Ret (l, w1) ∧ l = [].
Proof.
  destruct (FindAncestors_closed oneEvent 5) as (l & w1 & Hq & _ & Hnone & _).
  exists l, w1. split; [exact Hq|]. apply Hnone. vm_compute. reflexivity.
Defined.





(** ** Bootstrap and epoch *)

(** [New] on a database that answers: events and relationships are left
    alone, an [Epoch] row with number 1 is created where there was none and
    an existing one is kept (the rejected [CREATE] is swallowed), and the
    handle starts with an empty cache.  Running it again changes nothing in
    the store.  When the session cannot be opened [New] returns the error
    and has done nothing. *)
Theorem New_bootstraps_once (d : Driver) (w : World) :
  (sessionFails d = true → New d w = Ret (true, w))
  ∧ ∃ w1 w2,
      New healthy w = Ret (false, w1) ∧
      Events (store w1) = Events (store w) ∧
      PARENT (store w1) = PARENT (store w) ∧
      Epochs (store w1) = (if Epochs (store w) is [] then [1%Z] else Epochs (store w)) ∧
      EventsHeaders w1 = [] ∧
      New healthy w1 = Ret (false, w2) ∧
      store w2 = store w1.
Proof.
  split.
  - intros Hfail. unfold New. by rewrite Hfail.
  - unfold New, ddl, bind, swallow, ignoreFakeError, logLine, send, getStore, putStore, ret.
    simpl. unfold createEpoch. simpl.
    destruct (Epochs (store w)) as [|n rest] eqn:Hrows; simpl.
    + eexists. eexists. split; [reflexivity|]. simpl.
      do 4 (split; [reflexivity|]). split; reflexivity.
    + eexists. eexists. split; [reflexivity|]. simpl. rewrite Hrows.
      do 4 (split; [reflexivity|]). split; reflexivity.
Qed.

Lemma New_bootstraps_once_witness :
  New (mkDriver true []) emptyWorld = Ret (true, emptyWorld).
Proof. apply (New_bootstraps_once (mkDriver true []) emptyWorld). reflexivity. Defined.

(** Of two [SetEpoch] in a row the last one wins, whatever the order of the
    two numbers and whatever the first one is: where an [Epoch] row exists
    [GetEpoch] then returns the second number.  Where there is none, neither
    call creates one and [GetEpoch] still returns 1.  Neither call touches
    events or relationships. *)
Theorem SetEpoch_last_wins (w : World) (a b : Z) :
  (0 ≤ b < EpochMax)%Z →
  ∃ w1 w2 w3,
    SetEpoch healthy a w = Ret (tt, w1) ∧
    SetEpoch healthy b w1 = Ret (tt, w2) ∧
    GetEpoch healthy w2 = Ret (if Epochs (store w) is [] then 1%Z else b, w3) ∧
    Epochs (store w2) = map (λ _, b) (Epochs (store w)) ∧
    Events (store w2) = Events (store w) ∧
    PARENT (store w2) = PARENT (store w).
Proof.
  intros Hrange. do 3 eexists. split; [reflexivity|]. split; [reflexivity|].
  split; [|split; [|done]].
  - unfold GetEpoch, bind. simpl. unfold matchEpoch. simpl.
    destruct (Epochs (store w)) as [|num rest]; [done|]. simpl.
    unfold toEpoch. by rewrite Z.mod_small.
  - simpl. rewrite map_map. done.
Qed.

Lemma SetEpoch_last_wins_witness :
  (∃ w1 w2 w3,
     SetEpoch healthy 9 seeded = Ret (tt, w1) ∧
     SetEpoch healthy 3 w1 = Ret (tt, w2) ∧
     GetEpoch healthy w2 = Ret (3%Z, w3)) ∧
  (∃ w1 w2 w3,
     SetEpoch healthy 9 unseeded = Ret (tt, w1) ∧
     SetEpoch healthy 3 w1 = Ret (tt, w2) ∧
     GetEpoch healthy w2 = Ret (1%Z, w3)).
Proof.
  assert (0 ≤ 3 < EpochMax)%Z as Hrange by (unfold EpochMax; lia).
  split.
  - destruct (SetEpoch_last_wins seeded 9 3 Hrange) as (w1 & w2 & w3 & H1 & H2 & H3 & _).
    exists w1, w2, w3. split; [exact H1|]. split; [exact H2 | exact H3].
  - destruct (SetEpoch_last_wins unseeded 9 3 Hrange) as (w1 & w2 & w3 & H1 & H2 & H3 & _).
    exists w1, w2, w3. split; [exact H1|]. split; [exact H2 | exact H3].
Defined.

(** ** The pipeline, further *)

Lemma closed_step (a : action) (s s' : Sys) :
  closed s = true → step a s = Next s' →
  closed s' = true ∧ enqs (trace s') = enqs (trace s).
Proof.
  intros Hclosed Hstep.
  destruct a;
    try (destruct (step_read _ _ _ Hstep I) as (o & -> & Hquiet);
         destruct o; try done; (split; [by simpl|simpl; snoc; done])).
  all: destruct s as [sync q cl cs ws pc tot lst w tr]; simpl in Hclosed; subst cl.
  all: step_cases Hstep; split; try done; by snoc.
Qed.

(** After [Close] the channel takes nothing more: however the run goes on,
    it stays closed and no further task enters it.  A call that reaches its
    send panics, and so does a second [Close]. *)
Theorem Close_stops_intake (sched : list action) (s s' : Sys) :
  closed s = true →
  exec sched s = Next s' →
  closed s' = true ∧
  enqs (trace s') = enqs (trace s) ∧
  step AClose s = Crashed ∧
  ∀ i t, calls s !! i = Some (SaveSend t) → step (ASend i) s = Crashed.
Proof.
  intros Hclosed Hexec. split; [|split; [|split]].
  - revert s Hclosed Hexec. induction sched as [|a sched IH]; intros s Hclosed; simpl.
    + by intros [= <-].
    + destruct (step a s) as [s1| |] eqn:Hstep; [|done..].
      apply IH. by destruct (closed_step a s s1).
  - revert s Hclosed Hexec. induction sched as [|a sched IH]; intros s Hclosed; simpl.
    + by intros [= <-].
    + destruct (step a s) as [s1| |] eqn:Hstep; [|done..].
      destruct (closed_step a s s1 Hclosed Hstep) as [Hc1 <-]. by apply IH.
  - simpl. by rewrite Hclosed.
  - intros i t Hpc. simpl. by rewrite Hpc, Hclosed.
Qed.

Lemma Close_stops_intake_witness :
  step AClose closedWithTwo = Crashed ∧ enqs (trace closedWithTwo) = [0; 1].
Proof.
  destruct (Close_stops_intake [] closedWithTwo closedWithTwo) as (_ & _ & Hagain & _).
  - vm_compute. reflexivity.
  - reflexivity.
  - split; [exact Hagain|]. vm_compute. reflexivity.
Defined.

(** [WaitForAll] does not return while the channel is open.  When it
    returns, [Load] has returned: the channel is closed and empty, every
    task that entered it has been through its write transaction, cache
    insert and completion signal in the order of entry, and the summary has
    been logged once.  The wait group of each of these tasks stands at 0,
    the header inserted last is in the cache, and if the driver let every
    write transaction of the run through, the node of each of these events
    is in the store. *)
Theorem WaitForAll_after_drain (w : World) (sync : bool) (s : Sys) :
  reachable w sync s →
  (closed s = false → WaitForAll s = Blocked)
  ∧ (∀ s', WaitForAll s = Next s' →
       s' = s ∧ closed s = true ∧ out s = [] ∧
       commits (trace s) = enqs (trace s) ∧
       (cached (trace s)).*1 = enqs (trace s) ∧
       dones (trace s) = enqs (trace s) ∧
       summaries (trace s) = 1 ∧
       (∀ i, i ∈ enqs (trace s) → wgs s !! i = Some 0%Z) ∧
       (∀ l i e, cached (trace s) = l ++ [(i, e)] →
          lruFind (Hash e) (EventsHeaders (db s)) = Some e) ∧
       (∀ sched, exec sched (newStore w sync) = Next s → Forall letsThrough sched →
          ∀ i e, OCall i e ∈ trace s → i ∈ enqs (trace s) →
                 isEvent (store (db s)) (Hash e) = true)).
Proof.
  intros Hreach. pose proof (Inv_reachable _ _ _ Hreach) as Hinv.
  unfold WaitForAll. split.
  - intros Hopen. destruct (loader s) eqn:Hpc; try done.
    destruct Hinv as [Hq _ _ _]. destruct (inv_exit s Hq Hpc). congruence.
  - intros s' Hwait. destruct (loader s) eqn:Hpc; try done. injection Hwait as <-.
    destruct (exit_all_done s Hinv Hpc) as (Hout & Hdone & Hcom & Hcac & Hone).
    pose proof Hinv as [Hq _ _ Hl]. destruct (inv_exit s Hq Hpc) as [Hcl _].
    do 7 (split; [done|]). split; [|split].
    + intros i Hi. apply (drained_wgs s i Hinv Hi). by rewrite Hdone.
    + apply (proj2 Hl).
    + intros sched Hexec Hok i e Hcall Hi.
      assert (InvNodes [] s) as Hnodes.
      { eapply InvNodes_exec; [apply Inv_init|exact Hok|apply InvNodes_init|exact Hexec]. }
      apply (Hnodes i e); [by rewrite Hcom| |done]. by intros ?%elem_of_nil.
Qed.

Lemma WaitForAll_after_drain_witness :
  WaitForAll closedWithTwo = Blocked ∧
  WaitForAll drainedTwo = Next drainedTwo ∧
  dones (trace drainedTwo) = enqs (trace drainedTwo) ∧
  enqs (trace drainedTwo) = [0; 1] ∧
  isEvent (store (db drainedTwo)) 2 = true ∧
  lruFind 2 (EventsHeaders (db drainedTwo)) = Some (mkHeader 2 7 [1%N] 0).
Proof.
  assert (reachable seeded false drainedTwo) as Hreach
    by (apply reachable_exec; vm_compute; exact I).
  assert (WaitForAll drainedTwo = Next drainedTwo) as Hwait by (vm_compute; reflexivity).
  destruct (WaitForAll_after_drain seeded false drainedTwo Hreach) as [_ Hret].
  destruct (Hret drainedTwo Hwait) as (_ & _ & _ & _ & _ & Hdone & _ & _ & Hlast & Hnode).
  split; [vm_compute; reflexivity|]. split; [exact Hwait|]. split; [exact Hdone|].
  split; [vm_compute; reflexivity|]. split.
  - assert (exec drainTwo (newStore seeded false) = Next drainedTwo) as Hexec
      by (vm_compute; reflexivity).
    assert (Forall letsThrough drainTwo) as Hok.
    { apply Forall_app. split; [|by apply Forall_replicate].
      repeat (apply Forall_cons; split; [by simpl|]). apply Forall_nil_2. }
    apply (Hnode drainTwo Hexec Hok 1 (mkHeader 2 7 [1%N] 0)).
    + apply (bool_decide_unpack _). vm_compute. exact I.
    + apply (bool_decide_unpack _). vm_compute. exact I.
  - apply (Hlast [(0, genesis)] 1 (mkHeader 2 7 [1%N] 0)). vm_compute. reflexivity.
Defined.

Lemma last_snoc_Some {A} (l : list A) (x : A) : list.last (l ++ [x]) = Some x.
Proof. apply last_snoc. Qed.

Lemma InvStats_init (w : World) (sync : bool) : InvStats (newStore w sync).
Proof. exists []. by repeat split. Qed.

Lemma InvStats_read (s : Sys) (c : Cache) (o : Obs) :
  InvStats s → quiet o → InvStats (afterRead s c o).
Proof.
  intros (l0 & Hcount & Htotal & Hlast & Hlog) Hquiet. exists l0.
  unfold counted in *. cbn [afterRead loader trace total last db logs].
  destruct o; try done; rewrite cached_app; cbn [cached omap list_omap];
    by rewrite app_nil_r.
Qed.

Lemma InvStats_step (a : action) (s s' : Sys) :
  InvStats s → step a s = Next s' → InvStats s'.
Proof.
  intros Hinv Hstep.
  destruct a; try (read_case Hstep InvStats_read).
  all: destruct s as [sync q cl cs ws pc tot lst w tr]; step_cases Hstep.
  all: destruct Hinv as (l0 & Hcount & Htotal & Hlast & Hlog).
  all: unfold InvStats, counted in *; cbn [loader trace total last db] in *.
  all: rewrite ?cached_app; cbn [cached omap list_omap]; rewrite ?app_nil_r.
  all: try (exists l0; by repeat split).
  - (* summary *)
    exists l0. repeat split; try done. intros _.
    match goal with H : logLine _ _ = Ret _ |- _ => unfold logLine in H; simplify_eq/= end.
    eauto.
  - (* cache insert *) exists l0. repeat split; try done. by rewrite Hcount.
  - (* statistics, with the progress line *)
    exists (l0 ++ [(i, Payload t)]). repeat split; try done.
    + rewrite length_app. simpl. lia.
    + by rewrite last_snoc_Some.
  - exists (l0 ++ [(i, Payload t)]). repeat split; try done.
    + rewrite length_app. simpl. lia.
    + by rewrite last_snoc_Some.
Qed.

Lemma InvStats_reachable (w : World) (sync : bool) (s : Sys) :
  reachable w sync s → InvStats s.
Proof.
  intros [sched Hexec]. revert Hexec. generalize (InvStats_init w sync).
  generalize (newStore w sync). induction sched as [|a sched IH]; intros s0 Hinv; simpl.
  - by intros [= <-].
  - destruct (step a s0) as [s1| |] eqn:Hstep; [|done..].
    apply IH. by eapply InvStats_step.
Qed.

(** The summary of [Load] counts right: when [Load] has returned, the line
    it logged last carries as total the number of tasks that entered the
    channel and as last hash the hash of the last of them (the zero hash if
    there was none). *)
Theorem Load_summary_counts (w : World) (sync : bool) (s : Sys) :
  reachable w sync s →
  loader s = LoadExit →
  total s = Z.of_nat (length (enqs (trace s))) ∧
  last s = default 0%N (Hash <$> (snd <$> list.last (cached (trace s)))) ∧
  (cached (trace s)).*1 = enqs (trace s) ∧
  ∃ ls, logs (db s) = ls ++ [LogSummary (last s) (total s)].
Proof.
  intros Hreach Hpc. pose proof (Inv_reachable _ _ _ Hreach) as Hinv.
  destruct (InvStats_reachable _ _ _ Hreach) as (l & Hcount & Htotal & Hlast & Hlog).
  destruct (exit_all_done s Hinv Hpc) as (_ & _ & _ & Hcac & _).
  unfold counted in Hcount. rewrite Hpc in Hcount. subst l.
  split; [|split; [done|split; [done|by apply Hlog]]].
  by rewrite Htotal, <- Hcac, length_fmap.
Qed.

Lemma Load_summary_counts_witness :
  total drainedTwo = 2%Z ∧ last drainedTwo = 2%N.
Proof.
  assert (reachable seeded false drainedTwo) as Hreach
    by (apply reachable_exec; vm_compute; exact I).
  destruct (Load_summary_counts seeded false drainedTwo Hreach) as (Htotal & Hlast & _).
  - vm_compute. reflexivity.
  - split; [rewrite Htotal | rewrite Hlast]; vm_compute; reflexivity.
Defined.








(** Ingestion never deletes and never corrupts.  In every state the pipeline
    reaches, each node and relationship the store started with is still
    there, relationships join event nodes if they did at the start, the
    epoch rows are as they were, the cache holds at most 500 headers if it
    did at the start, and no answer of [FindAncestors] has lost a member. *)
Theorem pipeline_only_adds (w : World) (sync : bool) (s : Sys) :
  reachable w sync s →
  grows (store w) (store (db s)) ∧
  Epochs (store (db s)) = Epochs (store w) ∧
  (wfGraph (store w) → wfGraph (store (db s))) ∧
  (cacheBounded w → cacheBounded (db s)) ∧
  (∀ h y, y ∈ matchAncestors (store w) h → y ∈ matchAncestors (store (db s)) h).
Proof.
  intros Hreach. destruct (reachable_db w sync s Hreach) as (Hgrow & ? & ? & ?).
  split; [done|]. split; [done|]. split; [done|]. split; [done|].
  intros h y. by apply grows_ancestors.
Qed.

Lemma pipeline_only_adds_witness :
  wfGraph (store (db savedOne)) ∧ cacheBounded (db savedOne).
Proof.
  assert (reachable seeded true savedOne) as Hreach
    by (apply reachable_exec; vm_compute; exact I).
  destruct (pipeline_only_adds seeded true savedOne Hreach) as (_ & _ & Hwf & Hcb & _).
  split.
  - apply Hwf. split.
    + intros a b Hin. by apply elem_of_nil in Hin.
    + intros k ff Hk. change (Events (store seeded)) with (∅ : gmap N fields) in Hk.
      by rewrite lookup_empty in Hk.
  - apply Hcb. unfold cacheBounded, lruSize. simpl. lia.
Defined.

Lemma wgAdd_fresh (ws : list Z) (n : nat) :
  length ws = n → wgAdd n 1 (ws ++ [0%Z]) = Ret (<[n := 1%Z]> (ws ++ [0%Z])).
Proof.
  intros <-. unfold wgAdd. rewrite lookup_app_r by lia. rewrite Nat.sub_diag.
  cbn [lookup list_lookup]. by case_decide; [lia|].
Qed.

Lemma wgDone_fresh (ws : list Z) (n : nat) :
  length ws = n →
  wgDone n (<[n := 1%Z]> (ws ++ [0%Z])) = Ret (<[n := 0%Z]> (ws ++ [0%Z])).
Proof.
  intros <-. unfold wgDone, wgAdd.
  rewrite list_lookup_insert_eq by (rewrite length_app; simpl; lia).
  case_decide; [lia|]. by rewrite list_insert_insert_eq.
Qed.

(** One [Save] on an idle pipeline runs to its end.  With [Load] waiting at
    an empty, open channel and a driver that does not make it panic, the
    call builds its task, sends it, [Load] takes it through transaction,
    cache insert, signal and statistics, and the call returns, in either
    mode; [Load] is back at the empty channel, has counted one more event,
    and both [HasEvent] and [GetEvent] answer for the event from the cache. *)
Theorem Save_alone_completes (w : World) (sync : bool) (s : Sys) (d d' : Driver)
    (e : EventHeaderData) :
  reachable w sync s →
  loader s = LoadRecv → out s = [] → closed s = false →
  calm d →
  ∃ s', exec (saveAlone d (length (calls s)) e) s = Next s' ∧
        calls s' !! length (calls s) = Some SaveReturned ∧
        loader s' = LoadRecv ∧ out s' = [] ∧
        total s' = (total s + 1)%Z ∧ last s' = Hash e ∧
        returns (HasEvent d' (Hash e) (db s')) true ∧
        returns (GetEvent d' (Hash e) (db s')) (Some e).
Proof.
  intros Hreach Hpc Hout Hopen [_ Htx].
  pose proof (Inv_reachable _ _ _ Hreach) as [_ Ht _ _].
  pose proof (inv_len s Ht) as Hlen.
  pose proof (reachable_synced _ _ _ Hreach) as Hsync.
  destruct s as [sy q cl cs ws pc tot lst w0 tr]. simpl in *. subst pc q cl sy.
  destruct (storeEvent_total (txAt d 0) e w0 Htx) as [w1 Hstore].
  assert (∀ x : SavePC, (cs ++ [x]) !! length cs = Some x) as Hmid.
  { intros x. by rewrite list_lookup_middle. }
  assert (∀ (x : SavePC) y, <[length cs := y]> (cs ++ [x]) !! length cs = Some y) as Hins.
  { intros x y. apply list_lookup_insert_eq. rewrite length_app. simpl. lia. }
  assert (lruFind (Hash e) (lruAdd (Hash e) e (EventsHeaders w1)) = Some e) as Hfind
    by apply lruAdd_same.
  unfold saveAlone. destruct sync.
  - cbn [exec step synced calls wgs out closed loader db trace total last].
    rewrite (wgAdd_fresh ws (length cs) Hlen).
    cbn [exec step stepLoad withDb synced calls wgs out closed loader db trace total last].
    rewrite Hmid. rewrite decide_True by (unfold outCap; simpl; lia).
    cbn [stepLoad app synced calls wgs out closed loader db trace total last
         Payload event].
    unfold withDb at 1. cbn [db]. rewrite Hstore.
    cbn [stepLoad withDb cacheAdd Done onDone event ret synced calls wgs out closed loader
         db trace total last Payload].
    rewrite (wgDone_fresh ws (length cs) Hlen).
    cbn [stepLoad withDb ret synced calls wgs out closed loader db trace total last
         Payload event].
    rewrite Hins. cbn [negb orb]. unfold wgIdle.
    rewrite list_lookup_insert_eq by (rewrite length_app; simpl; lia).
    rewrite bool_decide_true by done.
    eexists. split; [reflexivity|].
    cbn [synced calls wgs out closed loader db trace total last store EventsHeaders].
    split; [apply list_lookup_insert_eq; rewrite length_insert, length_app; simpl; lia|].
    do 4 (split; [done|]).
    split; [by eapply HasEvent_cached|by eapply GetEvent_cached].
  - cbn [exec step stepLoad withDb synced calls wgs out closed loader db trace total last].
    rewrite Hmid. rewrite decide_True by (unfold outCap; simpl; lia).
    cbn [stepLoad app synced calls wgs out closed loader db trace total last
         Payload event].
    unfold withDb at 1. cbn [db]. rewrite Hstore.
    cbn [stepLoad withDb cacheAdd Done onDone event ret synced calls wgs out closed loader
         db trace total last Payload].
    rewrite Hins. cbn [negb orb].
    eexists. split; [reflexivity|].
    cbn [synced calls wgs out closed loader db trace total last store EventsHeaders].
    split; [apply list_lookup_insert_eq; rewrite length_insert, length_app; simpl; lia|].
    do 4 (split; [done|]).
    split; [by eapply HasEvent_cached|by eapply GetEvent_cached].
Qed.

Lemma Save_alone_completes_witness :
  ∃ s', exec (saveAlone txFailing 1 (mkHeader 2 7 [1%N] 0)) savedOne = Next s' ∧
        calls s' !! 1 = Some SaveReturned ∧
        returns (GetEvent runFailing 2 (db s')) (Some (mkHeader 2 7 [1%N] 0)).
Proof.
  assert (reachable seeded true savedOne) as Hreach
    by (apply reachable_exec; vm_compute; exact I).
  destruct (Save_alone_completes seeded true savedOne txFailing runFailing
              (mkHeader 2 7 [1%N] 0) Hreach)
    as (s' & Hexec & Hret & _ & _ & _ & _ & _ & Hget).
  - vm_compute. reflexivity.
  - vm_compute. reflexivity.
  - vm_compute. reflexivity.
  - split; [reflexivity|]. vm_compute. discriminate.
  - exists s'. split; [exact Hexec|]. split; [exact Hret | exact Hget].
Defined.

(** Once committed, always found.  After a write transaction for [e] that
    the driver let through, [HasEvent] answers true for [e]'s hash in every
    state a pipeline over that database reaches, from the cache or from the
    store, however many other events have passed through the cache since. *)
Theorem committed_event_stays_visible (w w1 : World) (e : EventHeaderData) (sync : bool)
    (s : Sys) :
  storeEvent TxOk e w = Ret (tt, w1) →
  reachable w1 sync s →
  returns (HasEvent healthy (Hash e) (db s)) true.
Proof.
  intros Hstore Hreach.
  pose proof (storeEvent_node e w w1 tt Hstore) as Hnode.
  destruct (reachable_db w1 sync s Hreach) as (Hgrow & _).
  pose proof (grows_isEvent _ _ _ Hgrow Hnode) as Hnow.
  destruct (lruFind (Hash e) (EventsHeaders (db s))) as [v|] eqn:Hfind.
  - by eapply HasEvent_cached.
  - rewrite HasEvent_store_backed by done. rewrite Hnow. by eexists.
Qed.

Lemma committed_event_stays_visible_witness :
  returns (HasEvent healthy 1
             (db (stateOf (exec (ALoad healthy false :: saveAlone healthy 0 (mkHeader 2 7 [1%N] 0))
                                (newStore afterCommit true))
                          (newStore afterCommit true)))) true.
Proof.
  apply (committed_event_stays_visible
           (mkWorld (mkGraph ∅ [] [1%Z]) [] [] []) afterCommit genesis true).
  - vm_compute. reflexivity.
  - apply reachable_exec. vm_compute. exact I.
Defined.
